(** * resume_transform: the deterministic layer of [main.py]

    A shallow embedding of the pure post-processing code of the resume
    pipeline ([enforce_absolute_urls], the master keyword list, the
    keyword append of step 6, the skill partition of step 7), of the
    retry loop of [call_gemini_api], of the verification stage and of
    the slots of the transform prompt, with the properties the
    specification states about them.

    Python [str] values are modelled as lists of code points of the
    range U+0000..U+00FF (one [ascii] each); [str.lower], [str.strip] and
    the ordering of [sorted] are the ones Python has on that range.
    Python dicts are [gmap]s from keys to JSON values, Python sets are
    [gset]s. *)

From Stdlib Require Import List Ascii String ZArith Lia Bool Sorted Permutation.
From Stdlib Require Import DecimalString.
From stdpp Require Import gmap strings.
Import ListNotations.

Set Warnings "-via-type-remapping,-via-type-mismatch,-register-all".

(** ** Text *)

Definition str := list ascii.

Inductive lit := lit_nil | lit_cons (a : ascii) (l : lit).

Fixpoint lit_of_bytes (l : list Byte.byte) : lit :=
  match l with
  | [] => lit_nil
  | b :: l' => lit_cons (ascii_of_byte b) (lit_of_bytes l')
  end.

Fixpoint bytes_of_lit (s : lit) : list Byte.byte :=
  match s with
  | lit_nil => []
  | lit_cons a l => byte_of_ascii a :: bytes_of_lit l
  end.

Declare Scope str_scope.
Delimit Scope str_scope with str.
String Notation str lit_of_bytes bytes_of_lit
  (via lit mapping [[nil] => lit_nil, [cons] => lit_cons]) : str_scope.
Open Scope str_scope.

(** [bool(s)] for a string: non-empty. *)
Definition truthy (s : str) : bool :=
  match s with [] => false | _ :: _ => true end.

(** [s.startswith(p)] *)
Fixpoint startswith (p s : str) : bool :=
  match p, s with
  | [], _ => true
  | _ :: _, [] => false
  | a :: p', b :: s' => Ascii.eqb a b && startswith p' s'
  end.

(** [p in s] *)
Fixpoint occurs (p s : str) : bool :=
  startswith p s ||
  match s with
  | [] => false
  | _ :: s' => occurs p s'
  end.

(** [s.replace(old, new)] for a non-empty [old]: scan from the left, at
    each match emit [new] and jump over the match.  [skip] counts the
    characters of the current match still to be jumped over. *)
Fixpoint replace_from (old new : str) (skip : nat) (s : str) : str :=
  match s with
  | [] => []
  | c :: s' =>
      match skip with
      | S k => replace_from old new k s'
      | O =>
          if startswith old s
          then new ++ replace_from old new (List.length old - 1) s'
          else c :: replace_from old new 0 s'
      end
  end.

Definition replace (old new s : str) : str := replace_from old new 0 s.

(** [str.isspace] on one code point below U+0100. *)
Definition is_space (c : ascii) : bool :=
  let n := N_of_ascii c in
  ((9 <=? n) && (n <=? 13) || (28 <=? n) && (n <=? 32) || (n =? 133) || (n =? 160))%N.

(** [str.lower] on one code point below U+0100. *)
Definition lower_char (c : ascii) : ascii :=
  let n := N_of_ascii c in
  if ((65 <=? n) && (n <=? 90) || (192 <=? n) && (n <=? 222) && negb (n =? 215))%N
  then ascii_of_N (n + 32)
  else c.

Definition lower (s : str) : str := map lower_char s.

Fixpoint lstrip (s : str) : str :=
  match s with
  | [] => []
  | c :: s' => if is_space c then lstrip s' else s
  end.

Definition rstrip (s : str) : str := rev (lstrip (rev s)).

Definition strip (s : str) : str := rstrip (lstrip s).

(** [s.split(sep)] for a one-character separator. *)
Fixpoint split (sep : ascii) (s : str) : list str :=
  match s with
  | [] => [[]]
  | c :: s' =>
      if Ascii.eqb c sep then [] :: split sep s'
      else match split sep s' with
           | [] => [[c]]
           | t :: ts => (c :: t) :: ts
           end
  end.

(** [sep.join(l)] *)
Fixpoint join (sep : str) (l : list str) : str :=
  match l with
  | [] => []
  | x :: l' =>
      match l' with
      | [] => x
      | _ :: _ => x ++ sep ++ join sep l'
      end
  end.

(** Python compares strings code point by code point. *)
Fixpoint str_compare (a b : str) : comparison :=
  match a, b with
  | [], [] => Eq
  | [], _ :: _ => Lt
  | _ :: _, [] => Gt
  | x :: a', y :: b' =>
      match Ascii.compare x y with
      | Eq => str_compare a' b'
      | c => c
      end
  end.

Definition str_lt (a b : str) : Prop := str_compare a b = Lt.
Definition str_le (a b : str) : Prop := str_compare a b <> Gt.

Fixpoint insert_sorted (x : str) (l : list str) : list str :=
  match l with
  | [] => [x]
  | y :: l' =>
      match str_compare x y with
      | Gt => y :: insert_sorted x l'
      | _ => x :: l
      end
  end.

(** [sorted(l)] for a list of strings. *)
Definition sorted (l : list str) : list str := fold_right insert_sorted [] l.

(** [sorted(list(set(l)))]: the distinct elements of [l] in ascending
    order. *)
Definition sorted_set (l : list str) : list str :=
  sorted (elements (list_to_set l : gset str)).

(** [str(n)] for an integer. *)
Definition str_of_Z (n : Z) : str :=
  list_ascii_of_string (NilZero.string_of_int (Z.to_int n)).

(** ** The link normalizer *)

Definition enforce_absolute_urls (contact_line : str) : str :=
  if negb (truthy contact_line) then ""
  else
    let contact_line := replace "http://" "https://" contact_line in
    let contact_line := replace "https://https://" "https://" contact_line in
    let contact_line :=
      if occurs "linkedin.com" contact_line
         && negb (occurs "https://linkedin.com" contact_line)
      then replace "linkedin.com" "https://linkedin.com" contact_line
      else contact_line in
    let contact_line :=
      if occurs "github.com" contact_line
         && negb (occurs "https://github.com" contact_line)
      then replace "github.com" "https://github.com" contact_line
      else contact_line in
    let contact_line :=
      if occurs "netlify.app" contact_line
         && negb (occurs "https://" contact_line)
      then replace "ayaanahmad-portfolio.netlify.app"
                   "https://ayaanahmad-portfolio.netlify.app" contact_line
      else contact_line in
    replace "https://https://" "https://" contact_line.

(** ** JSON values, as [json.loads] builds them *)

Inductive pyval :=
  | PStr (s : str)
  | PNull
  | PNum (n : Z)
  | PBool (b : bool)
  | PList (l : list pyval)
  | PDict (d : gmap string pyval).

(** [bool(v)] *)
Definition py_truthy (v : pyval) : bool :=
  match v with
  | PStr s => truthy s
  | PNull => false
  | PNum n => negb (n =? 0)%Z
  | PBool b => b
  | PList l => match l with [] => false | _ :: _ => true end
  | PDict d => negb (bool_decide (dom d = (∅ : gset string)))
  end.

(** ** Exceptions *)

Inductive exn :=
  | AttributeError
  | TypeError
  | IndexError
  | KeyError
  | ValueError
  | JSONDecodeError.

Inductive res (A : Type) :=
  | Ok (a : A)
  | Raise (e : exn).
Arguments Ok {A} a.
Arguments Raise {A} e.

#[global] Instance res_bind : MBind res := fun A B f m =>
  match m with
  | Ok a => f a
  | Raise e => Raise e
  end.

#[global] Instance res_ret : MRet res := fun A a => Ok a.

(** A comprehension whose element expression may raise. *)
Fixpoint for_each {A B : Type} (f : A -> res B) (l : list A) : res (list B) :=
  match l with
  | [] => Ok []
  | a :: l' => b ← f a; bs ← for_each f l'; Ok (b :: bs)
  end.

(** Calling a [str] method ([split], [strip], [lower], [startswith]) on a
    value: only strings have it. *)
Definition str_method (v : pyval) : res str :=
  match v with
  | PStr s => Ok s
  | _ => Raise AttributeError
  end.

(** [v.get(k, dflt)]: only dicts have [get]. *)
Definition py_get (v : pyval) (k : string) (dflt : pyval) : res pyval :=
  match v with
  | PDict d => Ok (default dflt (d !! k))
  | _ => Raise AttributeError
  end.

(** [v[0]] *)
Definition py_first (v : pyval) : res pyval :=
  match v with
  | PList (x :: _) => Ok x
  | PList [] => Raise IndexError
  | PStr (c :: _) => Ok (PStr [c])
  | PStr [] => Raise IndexError
  | PDict _ => Raise KeyError
  | _ => Raise TypeError
  end.

(** [for x in v]: lists give their items, strings their characters, dicts
    their keys; nothing else is iterable. *)
Definition py_iter (v : pyval) : res (list pyval) :=
  match v with
  | PList l => Ok l
  | PStr s => Ok (map (fun c => PStr [c]) s)
  | PDict d => Ok (map (fun k => PStr (list_ascii_of_string k)) (elements (dom d)))
  | _ => Raise TypeError
  end.

(** ** The master keyword list (after call 1.5)

    Keywords are strings: the lists handled here are the ones whose
    entries are all JSON strings, as both prompts ask for. *)

(** [jd_all_skills_list_call1]: the four tiers, in the order the code
    concatenates them. *)
Definition jd_all_skills_list_call1 (hard_skills tools domain_phrases soft_skills : list str)
  : list str :=
  hard_skills ++ tools ++ domain_phrases ++ soft_skills.

(** [sorted(list(set(s for s in jd_all_skills_list_call1 if s)))] *)
Definition jd_all_skills_set_call1 (all_skills : list str) : list str :=
  sorted_set (List.filter truthy all_skills).

(** [sorted(list(set(jd_all_skills_set_call1 + missing_keywords)))] *)
Definition master_keyword_list (skills_call1 missing_keywords : list str) : list str :=
  sorted_set (skills_call1 ++ missing_keywords).

(** ** Step 6: the keyword append *)

(** [skill.lower().strip()] *)
Definition key (skill : str) : str := strip (lower skill).

(** The body of step 6 on the skills string: [Some s] when the code
    assigns [s] to ['skills'], [None] when nothing is missing and the
    field is left alone. *)
Definition keyword_append_skills (master : list str) (current_skills_str : str)
  : option str :=
  let jd_skills_set : gset str :=
    list_to_set (map key (List.filter truthy master)) in
  let current_skills_list := map strip (split ","%char current_skills_str) in
  let resume_skills_set : gset str :=
    list_to_set (map key (List.filter truthy current_skills_list)) in
  let missing_skills := jd_skills_set ∖ resume_skills_set in
  if bool_decide (missing_skills ≠ ∅) then
    let original_case_missing :=
      List.filter
        (fun skill => truthy skill && bool_decide (key skill ∈ missing_skills))
        (elements (list_to_set master : gset str)) in
    let final_skills_list := current_skills_list ++ original_case_missing in
    let final_skills_list_cleaned := sorted_set (List.filter truthy final_skills_list) in
    Some (join ", " final_skills_list_cleaned)
  else None.

(** The [try] block of step 6. *)
Definition keyword_append_try (master : list str) (final_resume_object : gmap string pyval)
  : res (gmap string pyval) :=
  let current_skills_str := default (PStr "") (final_resume_object !! "skills"%string) in
  s ← str_method current_skills_str;
  match keyword_append_skills master s with
  | Some skills => Ok (<["skills"%string := PStr skills]> final_resume_object)
  | None => Ok final_resume_object
  end.

(** Step 6 with its [except Exception]: on any exception the object is
    kept as it is. *)
Definition keyword_append (master : list str) (final_resume_object : gmap string pyval)
  : gmap string pyval :=
  match keyword_append_try master final_resume_object with
  | Ok o => o
  | Raise _ => final_resume_object
  end.

(** ** Step 7: the skill partition *)

(** [[skill.strip() for skill in tier if skill.strip()]] *)
Definition stripped_tier (tier : pyval) : res (list str) :=
  items ← py_iter tier;
  stripped ← for_each (fun skill => s ← str_method skill; Ok (strip s)) items;
  Ok (List.filter truthy stripped).

(** The [try] block of step 7.  Every operation that can raise comes
    before the first assignment to the object. *)
Definition partition_skills_try (jd_analysis_report final_resume_object : gmap string pyval)
  : res (gmap string pyval) :=
  let current_skills_str := default (PStr "") (final_resume_object !! "skills"%string) in
  if py_truthy current_skills_str then
    s ← str_method current_skills_str;
    let all_skills_list := List.filter truthy (map strip (split ","%char s)) in
    let jd_keywords := default (PDict ∅) (jd_analysis_report !! "keywords"%string) in
    hard ← py_get jd_keywords "hard_skills" (PList []);
    hard_skills ← stripped_tier hard;
    soft ← py_get jd_keywords "soft_skills" (PList []);
    soft_skills ← stripped_tier soft;
    let visible_set : gset str := list_to_set (map lower (hard_skills ++ soft_skills)) in
    let visible_skills :=
      List.filter (fun skill => bool_decide (lower skill ∈ visible_set)) all_skills_list in
    let invisible_skills :=
      List.filter (fun skill => negb (bool_decide (lower skill ∈ visible_set))) all_skills_list in
    let skills_visible :=
      match visible_skills with [] => "" | _ :: _ => join ", " visible_skills end in
    let skills_invisible :=
      match invisible_skills with [] => "" | _ :: _ => join ", " invisible_skills end in
    Ok (delete "skills"%string
          (<["skills_invisible"%string := PStr skills_invisible]>
             (<["skills_visible"%string := PStr skills_visible]> final_resume_object)))
  else
    Ok (delete "skills"%string
          (<["skills_invisible"%string := PStr ""]>
             (<["skills_visible"%string := PStr ""]> final_resume_object))).

(** Step 7 with its [except Exception]: keep all skills visible. *)
Definition partition_skills (jd_analysis_report final_resume_object : gmap string pyval)
  : gmap string pyval :=
  match partition_skills_try jd_analysis_report final_resume_object with
  | Ok o => o
  | Raise _ =>
      match final_resume_object !! "skills"%string with
      | Some skills =>
          delete "skills"%string
            (<["skills_invisible"%string := PStr ""]>
               (<["skills_visible"%string := skills]> final_resume_object))
      | None => final_resume_object
      end
  end.

(** The skills of a skills string as the code reads them back: the
    trimmed, non-empty, comma-separated entries. *)
Definition skills_of (skills : str) : list str :=
  List.filter truthy (map strip (split ","%char skills)).

(** ** The LLM gateway: [call_gemini_api]

    The generation service is a function from the number of the POST
    (counted from 0) to its answer.  The run of the gateway is the list
    of its POSTs and sleeps together with what it returns or raises. *)

Inductive answer :=
  | Response (status_code : Z) (text : str) (json : option (gmap string pyval))
  | RequestError.

Inductive event :=
  | Post (attempt : nat)
  | Sleep (milliseconds : Z).

Definition max_retries : nat := 5.
Definition base_delay : Z := 1.

(** [(base_delay * 2**attempt) + (attempt * 0.1)] seconds, written in
    milliseconds. *)
Definition delay (attempt : nat) : Z :=
  (base_delay * 2 ^ Z.of_nat attempt) * 1000 + Z.of_nat attempt * 100.

(** [response.raise_for_status()] passes the 2xx codes. *)
Definition is_success (status_code : Z) : bool :=
  (200 <=? status_code)%Z && (status_code <=? 299)%Z.

Definition client_error (status_code : Z) (text : str) : gmap string pyval :=
  {[ "error"%string := PStr ("Client Error: " ++ str_of_Z status_code);
     "details"%string := PStr text ]}.

Definition retries_exhausted : gmap string pyval :=
  {[ "error"%string := PStr "API call failed after several retries." ]}.

(** The [for attempt in range(max_retries)] loop, from [attempt] on, with
    [remaining] rounds to go. *)
Fixpoint attempts (service : nat -> answer) (remaining attempt : nat)
  : list event * res (gmap string pyval) :=
  match remaining with
  | O => ([], Ok retries_exhausted)
  | S remaining' =>
      let retry :=
        let '(events, result) := attempts service remaining' (S attempt) in
        (Post attempt :: Sleep (delay attempt) :: events, result) in
      match service attempt with
      | Response status_code text json =>
          if is_success status_code then
            ([Post attempt],
             match json with
             | Some result => Ok result
             | None => Raise JSONDecodeError
             end)
          else if (400 <=? status_code)%Z && (status_code <? 500)%Z then
            ([Post attempt], Ok (client_error status_code text))
          else retry
      | RequestError => retry
      end
  end.

Definition call_gemini_api (service : nat -> answer)
  : list event * res (gmap string pyval) :=
  attempts service max_retries 0.

Definition posts (events : list event) : list nat :=
  flat_map (fun e => match e with Post n => [n] | Sleep _ => [] end) events.

Definition sleeps (events : list event) : list Z :=
  flat_map (fun e => match e with Post _ => [] | Sleep d => [d] end) events.

(** ** Call 1.5: the verification stage *)

Inductive failure :=
  | Exception (e : exn)
  | UnboundLocalError.

(** [s.endswith(p)] *)
Definition endswith (p s : str) : bool := startswith (rev p) (rev s).

(** The suffix of [s] that starts at the first [c]. *)
Fixpoint from_first (c : ascii) (s : str) : option str :=
  match s with
  | [] => None
  | x :: s' => if Ascii.eqb x c then Some s else from_first c s'
  end.

(** The prefix of [s] that ends at the last [c]. *)
Definition upto_last (c : ascii) (s : str) : option str :=
  match from_first c (rev s) with
  | Some r => Some (rev r)
  | None => None
  end.

(** [re.search(r'\{.*\}', text, re.DOTALL)]: from the first opening brace
    to the last closing brace after it. *)
Definition search_braces (text : str) : option str :=
  match from_first "{"%char text with
  | Some (b :: rest) =>
      match upto_last "}"%char rest with
      | Some inner => Some (b :: inner)
      | None => None
      end
  | _ => None
  end.

(** The fence clean-up of calls 1, 1.5 and 2. *)
Definition strip_fences (text : str) : str :=
  let text := if startswith "```json" text then skipn 7 text else text in
  if endswith "```" text then firstn (List.length text - 3) text else text.

(** [sorted(list(set(jd_all_skills_set_call1 + missing_keywords)))] on the
    value found under ["missing_keywords"]: adding a value that is not a
    list to a list raises [TypeError].  A list with an entry that is not
    a string is outside the keyword model; [set] and [sorted] raise
    [TypeError] on it as soon as an entry is unhashable or two entries of
    different kinds are compared. *)
Definition keyword_strings (missing_keywords : pyval) : res (list str) :=
  match missing_keywords with
  | PList l =>
      for_each (fun v => match v with PStr s => Ok s | _ => Raise TypeError end) l
  | _ => Raise TypeError
  end.

Section Verification.

(** [json.loads]: [None] stands for [JSONDecodeError]. *)
Variable json_loads : str -> option pyval.

(** The first statement of the [try] block: the text of the first part
    of the first candidate. *)
Definition response_text (api_response : gmap string pyval) : res pyval :=
  let candidates := default (PList [PDict ∅]) (api_response !! "candidates"%string) in
  candidate ← py_first candidates;
  content ← py_get candidate "content" (PDict ∅);
  parts ← py_get content "parts" (PList [PDict ∅]);
  part ← py_first parts;
  py_get part "text" (PStr "{}").

(** The rest of the [try] block, once [llm_output_text_call1_5] is
    bound. *)
Definition parse_missing_keywords (llm_output_text : pyval) : res pyval :=
  text ← str_method llm_output_text;
  let text := strip_fences text in
  let text := default text (search_braces text) in
  match json_loads text with
  | None => Raise JSONDecodeError
  | Some verification_data => py_get verification_data "missing_keywords" (PList [])
  end.

(** [except (json.JSONDecodeError, IndexError, KeyError, ValueError)] *)
Definition caught (e : exn) : bool :=
  match e with
  | JSONDecodeError | IndexError | KeyError | ValueError => true
  | AttributeError | TypeError => false
  end.

(** Lines 1606-1633.  The handler logs [llm_output_text_call1_5[:500]]:
    when the exception it caught came from the first statement, that
    name is still unbound and the handler raises in its turn. *)
Definition verified_missing_keywords (api_response : gmap string pyval)
  : failure + pyval :=
  if bool_decide (is_Some (api_response !! "error"%string)) then inr (PList [])
  else
    match response_text api_response with
    | Raise e => if caught e then inl UnboundLocalError else inl (Exception e)
    | Ok llm_output_text =>
        match parse_missing_keywords llm_output_text with
        | Raise e => if caught e then inr (PList []) else inl (Exception e)
        | Ok missing_keywords => inr missing_keywords
        end
    end.

(** The stage up to the master keyword list: the list, or the
    exception that leaves the endpoint. *)
Definition verification_stage (skills_call1 : list str)
    (api_response : gmap string pyval) : failure + list str :=
  match verified_missing_keywords api_response with
  | inl f => inl f
  | inr missing_keywords =>
      match keyword_strings missing_keywords with
      | Raise e => inl (Exception e)
      | Ok kws => inr (master_keyword_list skills_call1 kws)
      end
  end.

End Verification.

(** The envelope of a reply whose first part carries [text]. *)
Definition reply_with_text (text : str) : gmap string pyval :=
  {[ "candidates"%string :=
       PList [PDict {[ "content"%string :=
                PDict {[ "parts"%string :=
                  PList [PDict {[ "text"%string := PStr text ]}] ]} ]}] ]}.

(** ** Call 2: the transform prompt *)

(** [time_in_weeks: int = Form(default=2)]: the submitted integer, or the
    default when the field is not in the form. *)
Definition Form (default : Z) (submitted : option Z) : Z :=
  match submitted with
  | Some n => n
  | None => default
  end.

(** The four input slots of [RESUME_TRANSFORM_PROMPT_TEMPLATE] (its lines
    410 to 420).  The scoring rubric before them and the output schema
    after them contain none of the placeholders. *)
Definition RESUME_TRANSFORM_PROMPT_TEMPLATE : str :=
"Here is the resume to transform:

[Paste your resume here]

Here is the job description:

[Paste job description here]

Time in weeks for project development: [Optional: TIME_IN_WEEKS e.g., 2]

AI Multiplier for project scaling: [Optional: AI_MULTIPLIER e.g., 3]
".

Definition transform_prompt (original_resume_text job_description : str)
    (time_in_weeks ai_multiplier : Z) : str :=
  replace "[Optional: AI_MULTIPLIER e.g., 3]" (str_of_Z ai_multiplier)
    (replace "[Optional: TIME_IN_WEEKS e.g., 2]" (str_of_Z time_in_weeks)
       (replace "[Paste job description here]" job_description
          (replace "[Paste your resume here]" original_resume_text
             RESUME_TRANSFORM_PROMPT_TEMPLATE))).

(** The prompt of a request, from the form fields as submitted. *)
Definition transform_prompt_of_request (original_resume_text job_description : str)
    (time_in_weeks ai_multiplier : option Z) : str :=
  transform_prompt original_resume_text job_description
    (Form 2 time_in_weeks) (Form 2 ai_multiplier).

(** ** Notions used in the statements *)

(** An entry as [skills_of] produces them: free of commas, trimmed and
    non-empty. *)
Definition clean (x : str) : Prop :=
  ~ In ","%char x /\ strip x = x /\ x <> [].

(** [k] appears, up to case and surrounding white space, as one of the
    comma-separated tokens of the skills string. *)
Definition present (skills k : str) : Prop :=
  exists t, In t (split ","%char skills) /\ key t = key k.

(** [k] is matched by a non-empty entry of the skills string: the test
    that step 6 makes through [resume_skills_set]. *)
Definition covered (skills k : str) : Prop :=
  exists u, In u (map strip (split ","%char skills)) /\ u <> [] /\ key u = key k.

(** The skills of a skills string as a case-insensitive set: the
    lower-cased entries that the code reads back from it. *)
Definition skill_set (skills : str) : list str := map lower (skills_of skills).

(** The suffixes of a string, the longest first. *)
Fixpoint tails (s : str) : list str :=
  s :: match s with
       | [] => []
       | _ :: s' => tails s'
       end.

(** Some non-empty suffix of [a] is a prefix of [b]. *)
Definition overlaps (a b : str) : bool :=
  existsb (fun q => truthy q && startswith q b) (tails a).

(** Every non-empty suffix of [x] that is a prefix of [p] is a suffix of
    [y] too. *)
Definition borders_kept (x y p : str) : bool :=
  forallb (fun q => implb (truthy q && startswith q p) (endswith q y)) (tails x).

(** A sufficient test for: writing [y] in place of occurrences of [x]
    leaves an occurrence of [p] in place. *)
Definition transfers (p x y : str) : bool :=
  negb (overlaps p x) && negb (occurs x p) && negb (occurs p x) && borders_kept x y p.

(** [r] is [s] with some occurrences of [x] rewritten to [y]. *)
Inductive Rewrites (x y : str) : str -> str -> Prop :=
  | rw_nil : Rewrites x y [] []
  | rw_hit s r : Rewrites x y s r -> Rewrites x y (x ++ s) (y ++ r)
  | rw_keep c s r : Rewrites x y s r -> Rewrites x y (c :: s) (c :: r).

(** The run of [s.replace(old, new)]: a character is kept only where
    [old] does not start. *)
Inductive Replaced (old new : str) : str -> str -> Prop :=
  | rp_nil : Replaced old new [] []
  | rp_hit s r : Replaced old new s r -> Replaced old new (old ++ s) (new ++ r)
  | rp_keep c s r :
      startswith old (c :: s) = false ->
      Replaced old new s r -> Replaced old new (c :: s) (c :: r).

(** What one application of the link normalizer always achieves: no
    "http://" is left, a known domain that occurs also occurs with its
    scheme, and the portfolio test has nothing left to rewrite. *)
Definition settled (t : str) : Prop :=
  occurs "http://" t = false /\
  (occurs "linkedin.com" t = true -> occurs "https://linkedin.com" t = true) /\
  (occurs "github.com" t = true -> occurs "https://github.com" t = true) /\
  (occurs "netlify.app" t = true -> occurs "https://" t = false ->
   occurs "ayaanahmad-portfolio.netlify.app" t = false).

(** ** Further notions and functions *)

(** An answer after which the gateway sleeps and tries again: a transport
    error, or a status that is neither 2xx nor 4xx. *)
Definition retried (a : answer) : bool :=
  match a with
  | RequestError => true
  | Response status_code _ _ =>
      negb (is_success status_code)
      && negb ((400 <=? status_code)%Z && (status_code <? 500)%Z)
  end.

(** The POSTs and sleeps of the attempts [first], ..., [first + n - 1]
    when each of them is retried. *)
Definition retry_run (first n : nat) : list event :=
  flat_map (fun k => [Post k; Sleep (delay k)]) (seq first n).


(** *** [filter_cliches] *)

Definition PROHIBITED_CLICHES : list str :=
  ["action and results oriented"; "team player"; "a quick and agile learner";
   "self-motivated"; "innovative thinker"; "go-getter"; "detail-oriented";
   "results-driven"; "passionate professional"; "hard worker";
   "think outside the box"; "proactive"; "willingness to take initiative";
   "process driven"].

(** [{c.lower().strip() for c in PROHIBITED_CLICHES}] *)
Definition cliche_set : gset str := list_to_set (map key PROHIBITED_CLICHES).

Definition filter_cliches (skills_string : str) : str :=
  if negb (truthy skills_string) then ""
  else
    let skills_list := map strip (split ","%char skills_string) in
    let filtered :=
      map strip
        (List.filter
           (fun skill =>
              let skill_lower_stripped := key skill in
              truthy skill_lower_stripped
              && negb (bool_decide (skill_lower_stripped ∈ cliche_set)))
           skills_list) in
    join ", " filtered.

(** *** The keyword string of call 3 *)

(** [[x for x in l if not (x in seen or seen.add(x))]] *)
Fixpoint unique_from (seen : gset str) (l : list str) : list str :=
  match l with
  | [] => []
  | x :: l' =>
      if bool_decide (x ∈ seen) then unique_from seen l'
      else x :: unique_from ({[ x ]} ∪ seen) l'
  end.

Definition jd_all_skills_list_unique (jd_all_skills_list : list str) : list str :=
  unique_from ∅ jd_all_skills_list.

Definition jd_all_skills_str (jd_all_skills_list : list str) : str :=
  join ", " (jd_all_skills_list_unique jd_all_skills_list).

(** *** [find_urls_in_text] *)

(** The character class [[a-zA-Z0-9./?=&-_]].  Inside the brackets
    [&-_] is a range, from U+0026 to U+005F; it holds the upper-case
    letters, the digits and the four characters written before it, so
    that the class is that range and the lower-case letters. *)
Definition url_char (c : ascii) : bool :=
  let n := N_of_ascii c in
  ((38 <=? n) && (n <=? 95) || (97 <=? n) && (n <=? 122))%N.

Fixpoint take_while (P : ascii -> bool) (s : str) : str :=
  match s with
  | [] => []
  | c :: s' => if P c then c :: take_while P s' else []
  end.

(** What [(?:https?://|www\.)] matches at the head of [s]. *)
Definition url_scheme (s : str) : option str :=
  if startswith "https://" s then Some "https://"
  else if startswith "http://" s then Some "http://"
  else if startswith "www." s then Some "www."
  else None.

(** [re.findall] with the pattern
    [((?:https?://|www\.)[a-zA-Z0-9./?=&-_]+)]: at each position, from
    the left, a scheme followed by the longest non-empty run of class
    characters; the scan goes on behind the match.  [skip] counts the
    characters of the current match still to be jumped over. *)
Fixpoint find_urls_from (skip : nat) (s : str) : list str :=
  match s with
  | [] => []
  | _ :: s' =>
      match skip with
      | S k => find_urls_from k s'
      | O =>
          match url_scheme s with
          | Some scheme =>
              match take_while url_char (skipn (List.length scheme) s) with
              | [] => find_urls_from 0 s'
              | c :: rest =>
                  (scheme ++ c :: rest)
                    :: find_urls_from (List.length scheme + List.length rest) s'
              end
          | None => find_urls_from 0 s'
          end
      end
  end.

Definition find_urls_in_text (text : str) : list str := find_urls_from 0 text.

(** *** [parse_resume_pdf]

    What PyMuPDF hands over is taken as given: for each page its text
    and, for each link annotation, whether it is a URI link, its URI
    ([''] when it has none) and the text found inside its rectangle. *)

Record pdf_link := {
  kind_is_uri : bool;
  uri : str;
  textbox : str
}.

Record pdf_page := {
  page_text : str;
  page_links : list pdf_link
}.

Definition LF : ascii := "010"%char.

(** [full_text += page_text + "\n"] over the pages. *)
Definition full_text (pages : list pdf_page) : str :=
  concat (map (fun page => page_text page ++ [LF]) pages).

(** The pairs (text, url) of the embedded links of a page. *)
Definition embedded_links (page : pdf_page) : list (str * str) :=
  flat_map
    (fun link =>
       if kind_is_uri link then
         let url := strip (uri link) in
         if truthy url then
           let clickable_text := strip (textbox link) in
           [(if truthy clickable_text then clickable_text else url, url)]
         else []
       else [])
    (page_links page).

(** The plain-text URLs that no embedded link has. *)
Definition plain_links (seen_urls : gset str) (text : str) : list (str * str) :=
  flat_map
    (fun url =>
       let url := strip url in
       if bool_decide (url ∈ seen_urls) then [] else [(url, url)])
    (find_urls_in_text text).

Definition link_details (pages : list pdf_page) : list (str * str) :=
  let embedded := flat_map embedded_links pages in
  let seen_urls : gset str := list_to_set (map snd embedded) in
  embedded ++ plain_links seen_urls (full_text pages).

Fixpoint insert_by_len (ld : str * str) (l : list (str * str)) : list (str * str) :=
  match l with
  | [] => [ld]
  | y :: l' =>
      if List.length (fst ld) <? List.length (fst y) then y :: insert_by_len ld l'
      else ld :: l
  end.

(** [sorted(link_details, key=lambda d: len(d['text'] or ''), reverse=True)]:
    the longest text first, links with texts of one length in the order
    they had. *)
Definition sorted_links (l : list (str * str)) : list (str * str) :=
  fold_right insert_by_len [] l.

(** [s.find(p)]: [None] stands for -1. *)
Fixpoint find (p s : str) : option nat :=
  if startswith p s then Some 0
  else match s with
       | [] => None
       | _ :: s' => option_map S (find p s')
       end.

(** One round of the embedding loop. *)
Definition embed_link (embedded_text : str) (ld : str * str) : str :=
  let text := fst ld in
  let url := snd ld in
  if negb (truthy text) || negb (truthy url) || bool_decide (strip text = strip url)
  then embedded_text
  else
    match find text embedded_text with
    | None => embedded_text
    | Some idx =>
        let after_idx := idx + List.length text in
        let snippet_after := firstn (List.length url + 5) (skipn after_idx embedded_text) in
        if occurs url snippet_after then embedded_text
        else firstn after_idx embedded_text ++ " (" ++ url ++ ")"
               ++ skipn after_idx embedded_text
    end.

(** [doc] is [None] when opening or reading the document raises; the
    function then returns [None]. *)
Definition parse_resume_pdf (doc : option (list pdf_page)) : option str :=
  match doc with
  | None => None
  | Some pages =>
      Some (strip (fold_left embed_link (sorted_links (link_details pages))
                     (full_text pages)))
  end.

(** Step 1 of the endpoint, after the upload is saved: the text, or the
    status of the [HTTPException]. *)
Definition parse_upload (doc : option (list pdf_page)) : Z + str :=
  match parse_resume_pdf doc with
  | Some (c :: text) => inr (c :: text)
  | _ => inl 400%Z
  end.

(** *** Step 5 of the endpoint: the contact line *)

(** [k in v] for a string [k]. *)
Definition py_in (k : string) (v : pyval) : res bool :=
  match v with
  | PDict d => Ok (bool_decide (is_Some (d !! k)))
  | PList l =>
      Ok (existsb
            (fun x => match x with
                      | PStr s => bool_decide (s = list_ascii_of_string k)
                      | _ => false
                      end) l)
  | PStr s => Ok (occurs (list_ascii_of_string k) s)
  | _ => Raise TypeError
  end.

(** [enforce_absolute_urls] on whatever value sits under the key: a
    falsy value gives [""], a string is normalized, anything else has no
    [replace]. *)
Definition enforce_absolute_urls_py (contact_line : pyval) : res str :=
  if py_truthy contact_line then
    s ← str_method contact_line; Ok (enforce_absolute_urls s)
  else Ok "".

(** Step 5; it stands outside every [try]. *)
Definition enforce_contact_line (final_resume_object : gmap string pyval)
  : res (gmap string pyval) :=
  match final_resume_object !! "contactInfo"%string with
  | None => Ok final_resume_object
  | Some contact_info =>
      has_line ← py_in "contactLine" contact_info;
      if has_line : bool then
        match contact_info with
        | PDict d =>
            match d !! "contactLine"%string with
            | Some contact_line =>
                line ← enforce_absolute_urls_py contact_line;
                Ok (<["contactInfo"%string :=
                      PDict (<["contactLine"%string := PStr line]> d)]>
                      final_resume_object)
            | None => Raise KeyError
            end
        | _ => Raise TypeError
        end
      else Ok final_resume_object
  end.

(** Steps 5 to 7 in a row, as the endpoint runs them. *)
Definition cleanup (master : list str) (jd_analysis_report final_resume_object : gmap string pyval)
  : res (gmap string pyval) :=
  o ← enforce_contact_line final_resume_object;
  Ok (partition_skills jd_analysis_report (keyword_append master o)).

(** * Properties *)

(** ** The order of [sorted] *)

Lemma ascii_compare_refl (x : ascii) : Ascii.compare x x = Eq.
Proof. unfold Ascii.compare. apply N.compare_refl. Qed.

Lemma ascii_compare_lt (x y : ascii) :
  Ascii.compare x y = Lt <-> (N_of_ascii x < N_of_ascii y)%N.
Proof. unfold Ascii.compare. apply N.compare_lt_iff. Qed.

Lemma ascii_compare_gt (x y : ascii) :
  Ascii.compare x y = Gt <-> (N_of_ascii y < N_of_ascii x)%N.
Proof. unfold Ascii.compare. apply N.compare_gt_iff. Qed.

Lemma str_compare_refl (a : str) : str_compare a a = Eq.
Proof.
  induction a as [|x a IH]; simpl; [reflexivity|].
  now rewrite ascii_compare_refl.
Qed.

Lemma str_compare_eq (a b : str) : str_compare a b = Eq -> a = b.
Proof.
  revert b. induction a as [|x a IH]; intros [|y b]; simpl; try discriminate.
  - reflexivity.
  - destruct (Ascii.compare x y) eqn:E; try discriminate.
    intros H. apply Ascii.compare_eq_iff in E. subst y. f_equal. now apply IH.
Qed.

Lemma str_compare_antisym (a b : str) :
  str_compare b a = CompOpp (str_compare a b).
Proof.
  revert b. induction a as [|x a IH]; intros [|y b]; simpl; try reflexivity.
  rewrite (Ascii.compare_antisym y x).
  destruct (Ascii.compare x y); simpl; auto.
Qed.

Lemma str_lt_trans (a b c : str) : str_lt a b -> str_lt b c -> str_lt a c.
Proof.
  unfold str_lt. revert b c.
  induction a as [|x a IH]; intros [|y b] [|z c]; simpl; try discriminate; auto.
  destruct (Ascii.compare x y) eqn:Exy; try discriminate;
    destruct (Ascii.compare y z) eqn:Eyz; try discriminate; intros Hab Hbc.
  - apply Ascii.compare_eq_iff in Exy, Eyz. subst.
    rewrite ascii_compare_refl. eauto.
  - apply Ascii.compare_eq_iff in Exy. subst. now rewrite Eyz.
  - apply Ascii.compare_eq_iff in Eyz. subst. now rewrite Exy.
  - apply ascii_compare_lt in Exy. apply ascii_compare_lt in Eyz.
    assert (H : Ascii.compare x z = Lt).
    { apply ascii_compare_lt. eapply N.lt_trans; eassumption. }
    now rewrite H.
Qed.

Lemma str_le_lt_or_eq (a b : str) : str_le a b -> str_lt a b \/ a = b.
Proof.
  unfold str_le, str_lt. destruct (str_compare a b) eqn:E; intros H.
  - right. now apply str_compare_eq.
  - now left.
  - congruence.
Qed.

Lemma str_le_trans (a b c : str) : str_le a b -> str_le b c -> str_le a c.
Proof.
  intros Hab Hbc.
  destruct (str_le_lt_or_eq _ _ Hab) as [Hlt | ->]; [|assumption].
  destruct (str_le_lt_or_eq _ _ Hbc) as [Hlt' | <-].
  - pose proof (str_lt_trans _ _ _ Hlt Hlt') as H. unfold str_le, str_lt in *. congruence.
  - assumption.
Qed.

Lemma str_gt_le (a b : str) : str_compare a b = Gt -> str_le b a.
Proof.
  intros H. unfold str_le. rewrite str_compare_antisym, H. discriminate.
Qed.

Lemma insert_sorted_perm (x : str) (l : list str) :
  Permutation (insert_sorted x l) (x :: l).
Proof.
  induction l as [|y l IH]; simpl; [reflexivity|].
  destruct (str_compare x y); try reflexivity.
  rewrite IH. apply perm_swap.
Qed.

Lemma sorted_perm (l : list str) : Permutation (sorted l) l.
Proof.
  induction l as [|x l IH]; simpl; [reflexivity|].
  rewrite insert_sorted_perm. now constructor.
Qed.

Lemma insert_sorted_ordered (x : str) (l : list str) :
  StronglySorted str_le l -> StronglySorted str_le (insert_sorted x l).
Proof.
  induction l as [|y l IH]; simpl; intros Hs.
  - repeat constructor.
  - inversion Hs as [|? ? Hl Hy]; subst.
    assert (Hmin : str_le x y -> StronglySorted str_le (x :: y :: l)).
    { intros Hxy. constructor; [assumption|]. constructor; [assumption|].
      eapply List.Forall_impl; [|exact Hy]. intros z Hz. eapply str_le_trans; eauto. }
    destruct (str_compare x y) eqn:E.
    + apply Hmin. unfold str_le. congruence.
    + apply Hmin. unfold str_le. congruence.
    + constructor; [now apply IH|].
      eapply Permutation_Forall; [symmetry; apply insert_sorted_perm|].
      constructor; [now apply str_gt_le | assumption].
Qed.

Lemma sorted_ordered (l : list str) : StronglySorted str_le (sorted l).
Proof.
  induction l as [|x l IH]; simpl; [constructor|].
  now apply insert_sorted_ordered.
Qed.

Lemma strict_of_nodup (l : list str) :
  StronglySorted str_le l -> List.NoDup l -> StronglySorted str_lt l.
Proof.
  induction 1 as [|x l Hs IH Hx]; intros Hnd; [constructor|].
  inversion Hnd as [|? ? Hnin Hnd']; subst.
  constructor; [now apply IH|].
  rewrite List.Forall_forall in *. intros y Hy.
  destruct (str_le_lt_or_eq _ _ (Hx y Hy)) as [Hlt | ->]; [assumption|contradiction].
Qed.

Lemma sorted_set_In (l : list str) (x : str) : In x (sorted_set l) <-> In x l.
Proof.
  unfold sorted_set. split; intros H.
  - apply (Permutation_in _ (sorted_perm _)) in H.
    apply list_elem_of_In, elem_of_elements, elem_of_list_to_set in H.
    now apply list_elem_of_In.
  - apply (Permutation_in _ (Permutation_sym (sorted_perm _))).
    apply list_elem_of_In, elem_of_elements, elem_of_list_to_set.
    now apply list_elem_of_In.
Qed.

Lemma sorted_set_strict (l : list str) : StronglySorted str_lt (sorted_set l).
Proof.
  unfold sorted_set. apply strict_of_nodup; [apply sorted_ordered|].
  eapply Permutation_NoDup; [symmetry; apply sorted_perm|].
  apply NoDup_ListNoDup, NoDup_elements.
Qed.

Lemma strict_NoDup (l : list str) : StronglySorted str_lt l -> List.NoDup l.
Proof.
  induction 1 as [|x l Hs IH Hx]; constructor; [|assumption].
  intros Hin. rewrite List.Forall_forall in Hx. specialize (Hx x Hin).
  unfold str_lt in Hx. rewrite str_compare_refl in Hx. discriminate.
Qed.

(** ** [strip] and [lower] *)

Lemma is_space_lower_char (c : ascii) : is_space (lower_char c) = is_space c.
Proof. destruct c as [[] [] [] [] [] [] [] []]; vm_compute; reflexivity. Qed.

Lemma lstrip_In (s : str) (c : ascii) : In c (lstrip s) -> In c s.
Proof.
  induction s as [|x s IH]; simpl; [tauto|].
  destruct (is_space x); simpl; tauto.
Qed.

Lemma strip_In (s : str) (c : ascii) : In c (strip s) -> In c s.
Proof.
  unfold strip, rstrip. intros H.
  apply in_rev, lstrip_In, in_rev in H. now apply lstrip_In.
Qed.

Lemma lstrip_head (s : str) :
  lstrip s = [] \/ exists c t, lstrip s = c :: t /\ is_space c = false.
Proof.
  induction s as [|x s IH]; simpl; [now left|].
  destruct (is_space x) eqn:E; [assumption|]. right. eauto.
Qed.

Lemma lstrip_snoc (a : str) (c : ascii) :
  is_space c = false -> lstrip (a ++ [c]) = lstrip a ++ [c].
Proof.
  intros Hc. induction a as [|x a IH]; simpl.
  - now rewrite Hc.
  - destruct (is_space x); [assumption|reflexivity].
Qed.

Lemma rstrip_cons (c : ascii) (t : str) :
  is_space c = false -> rstrip (c :: t) = c :: rstrip t.
Proof.
  intros Hc. unfold rstrip. simpl.
  rewrite lstrip_snoc by assumption. now rewrite rev_app_distr.
Qed.

Lemma lstrip_idem (s : str) : lstrip (lstrip s) = lstrip s.
Proof.
  destruct (lstrip_head s) as [->|(c & t & -> & Hc)]; simpl; [reflexivity|].
  now rewrite Hc.
Qed.

Lemma rstrip_idem (s : str) : rstrip (rstrip s) = rstrip s.
Proof. unfold rstrip. now rewrite rev_involutive, lstrip_idem. Qed.

Lemma strip_idem (s : str) : strip (strip s) = strip s.
Proof.
  unfold strip.
  destruct (lstrip_head s) as [->|(c & t & -> & Hc)]; [reflexivity|].
  rewrite rstrip_cons by assumption. simpl. rewrite Hc.
  rewrite rstrip_cons by assumption. now rewrite rstrip_idem.
Qed.

Lemma strip_space (s : str) : strip (" "%char :: s) = strip s.
Proof. reflexivity. Qed.

Lemma lstrip_lower (s : str) : lstrip (lower s) = lower (lstrip s).
Proof.
  induction s as [|x s IH]; simpl; [reflexivity|].
  rewrite is_space_lower_char. destruct (is_space x); [assumption|reflexivity].
Qed.

Lemma rev_lower (s : str) : rev (lower s) = lower (rev s).
Proof. unfold lower. symmetry. apply map_rev. Qed.

Lemma strip_lower (s : str) : strip (lower s) = lower (strip s).
Proof.
  unfold strip, rstrip.
  now rewrite lstrip_lower, rev_lower, lstrip_lower, rev_lower.
Qed.

Lemma key_strip (s : str) : key (strip s) = key s.
Proof. unfold key. now rewrite !strip_lower, strip_idem. Qed.

Lemma key_space (s : str) : key (" "%char :: s) = key s.
Proof. reflexivity. Qed.

Lemma truthy_true (s : str) : truthy s = true <-> s <> [].
Proof. destruct s; simpl; split; congruence. Qed.

(** ** [split] and [join] *)

Lemma split_nosep (sep : ascii) (x : str) : ~ In sep x -> split sep x = [x].
Proof.
  induction x as [|c x IH]; simpl; intros H; [reflexivity|].
  destruct (Ascii.eqb_spec c sep) as [->|Hne]; [tauto|].
  rewrite IH by tauto. reflexivity.
Qed.

Lemma split_app (sep : ascii) (x r : str) :
  ~ In sep x -> split sep (x ++ sep :: r) = x :: split sep r.
Proof.
  induction x as [|c x IH]; simpl; intros H.
  - now rewrite Ascii.eqb_refl.
  - destruct (Ascii.eqb_spec c sep) as [->|Hne]; [tauto|].
    rewrite IH by tauto. reflexivity.
Qed.

Lemma split_In_nosep (sep : ascii) (s t : str) : In t (split sep s) -> ~ In sep t.
Proof.
  revert t. induction s as [|c s IH]; simpl; intros t.
  - intros [<-|[]]. tauto.
  - destruct (Ascii.eqb_spec c sep) as [->|Hne].
    + intros [<-|H]; [tauto|now apply IH].
    + destruct (split sep s) as [|u us] eqn:E.
      * intros [<-|[]]. simpl. tauto.
      * intros [<-|H].
        -- simpl. intros [?|Hin]; [congruence|].
           now apply (IH u (or_introl eq_refl)).
        -- apply IH. now right.
Qed.

(** Splitting a comma-joined list of comma-free entries gives the
    entries back, each but the first behind the space of the separator. *)
Lemma split_join_pre (pre x : str) (l : list str) :
  ~ In ","%char pre -> Forall (fun y => ~ In ","%char y) (x :: l) ->
  split ","%char (pre ++ join ", " (x :: l)) = (pre ++ x) :: map (cons " "%char) l.
Proof.
  revert pre x. induction l as [|y l IH]; intros pre x Hpre Hall.
  - simpl. apply split_nosep. inversion Hall; subst.
    rewrite in_app_iff. tauto.
  - inversion Hall as [|? ? Hx Hrest]; subst.
    change (join ", " (x :: y :: l)) with (x ++ ","%char :: " "%char :: join ", " (y :: l)).
    rewrite app_assoc, split_app by (rewrite in_app_iff; tauto).
    change (" "%char :: join ", " (y :: l)) with ([" "%char] ++ join ", " (y :: l)).
    rewrite IH; [reflexivity| |assumption].
    simpl. intros [H|[]]. discriminate.
Qed.

Lemma split_join (x : str) (l : list str) :
  Forall (fun y => ~ In ","%char y) (x :: l) ->
  split ","%char (join ", " (x :: l)) = x :: map (cons " "%char) l.
Proof. intros H. apply (split_join_pre [] x l); [simpl; tauto|assumption]. Qed.

(** Reading a joined list of such entries back gives the list. *)
Lemma skills_of_join (l : list str) :
  Forall clean l -> skills_of (join ", " l) = l.
Proof.
  intros Hall. unfold skills_of. destruct l as [|x l]; [reflexivity|].
  rewrite split_join by (eapply List.Forall_impl; [|exact Hall]; intros ? H; apply H).
  simpl. inversion Hall as [|? ? (_ & Hx & Hne) Hl]; subst.
  rewrite Hx. apply truthy_true in Hne. rewrite Hne. f_equal.
  clear -Hl. induction Hl as [|y l (_ & Hy & Hne) _ IH]; [reflexivity|].
  simpl. rewrite strip_space, Hy. apply truthy_true in Hne. rewrite Hne.
  now f_equal.
Qed.

Lemma skills_of_clean (s : str) : Forall clean (skills_of s).
Proof.
  unfold skills_of. apply List.Forall_forall. intros x Hx.
  apply filter_In in Hx. destruct Hx as [Hin Ht].
  apply in_map_iff in Hin. destruct Hin as (t & <- & Hin).
  repeat split.
  - intros H. apply strip_In in H. now apply (split_In_nosep _ _ _ Hin).
  - apply strip_idem.
  - now apply truthy_true.
Qed.

Lemma clean_filter (P : str -> bool) (l : list str) :
  Forall clean l -> Forall clean (List.filter P l).
Proof.
  intros H. apply List.Forall_forall. intros x Hx. apply filter_In in Hx.
  rewrite List.Forall_forall in H. now apply H.
Qed.

Lemma split_app_any (sep : ascii) (a b : str) :
  exists u pre, split sep (a ++ sep :: b) = (u :: pre) ++ split sep b.
Proof.
  induction a as [|c a (u & pre & IH)]; simpl.
  - exists [], []. now rewrite Ascii.eqb_refl.
  - destruct (Ascii.eqb c sep).
    + exists [], (u :: pre). now rewrite IH.
    + rewrite IH. exists (c :: u), pre. reflexivity.
Qed.

(** A comma-free entry of a joined list is one of its comma-separated
    tokens, behind the space of the separator unless it comes first. *)
Lemma join_token_pre (pre : str) (l : list str) (x : str) :
  ~ In ","%char pre -> In x l -> ~ In ","%char x ->
  In (pre ++ x) (split ","%char (pre ++ join ", " l))
  \/ In (" "%char :: x) (split ","%char (pre ++ join ", " l)).
Proof.
  revert pre. induction l as [|y l IH]; intros pre Hpre Hin Hx; [destruct Hin|].
  destruct l as [|z l].
  - destruct Hin as [->|[]]. left. simpl.
    rewrite split_nosep by (rewrite in_app_iff; tauto). now left.
  - change (join ", " (y :: z :: l))
      with (y ++ ","%char :: [" "%char] ++ join ", " (z :: l)).
    rewrite app_assoc.
    destruct Hin as [->|Hin].
    + left. rewrite split_app by (rewrite in_app_iff; tauto). now left.
    + right. destruct (split_app_any ","%char (pre ++ y) ([" "%char] ++ join ", " (z :: l)))
        as (u & pre' & ->).
      apply in_or_app. right.
      destruct (IH [" "%char]) as [H|H]; try assumption.
      simpl. intros [H|[]]. discriminate.
Qed.

(** ** Step 6 *)

Lemma covered_present (skills k : str) : covered skills k -> present skills k.
Proof.
  intros (u & Hin & _ & Hk). apply in_map_iff in Hin. destruct Hin as (t & <- & Hin).
  exists t. split; [assumption|]. now rewrite <- key_strip.
Qed.

Lemma elem_of_keys (l : list str) (x : str) :
  x ∈ (list_to_set (map key (List.filter truthy l)) : gset str)
  <-> exists u, In u l /\ u <> [] /\ key u = x.
Proof.
  rewrite elem_of_list_to_set, list_elem_of_In, in_map_iff. split.
  - intros (u & Hk & Hin). apply filter_In in Hin. destruct Hin as [Hin Ht].
    exists u. repeat split; try assumption. now apply truthy_true.
  - intros (u & Hin & Hne & Hk). exists u. split; [assumption|].
    apply filter_In. split; [assumption|]. now apply truthy_true.
Qed.

Lemma join_present (l : list str) (x : str) :
  In x l -> ~ In ","%char x -> present (join ", " l) x.
Proof.
  intros Hin Hx.
  destruct (join_token_pre [] l x) as [H|H]; try assumption; [simpl; tauto| |].
  - now exists x.
  - exists (" "%char :: x). split; [assumption|apply key_space].
Qed.

Lemma original_case_missing_In (master : list str) (missing : gset str) (x : str) :
  In x (List.filter (fun skill => truthy skill && bool_decide (key skill ∈ missing))
          (elements (list_to_set master : gset str)))
  <-> In x master /\ x <> [] /\ key x ∈ missing.
Proof.
  rewrite filter_In, andb_true_iff, truthy_true, bool_decide_eq_true.
  rewrite <- (list_elem_of_In (elements _)), elem_of_elements, elem_of_list_to_set.
  rewrite list_elem_of_In. tauto.
Qed.

(** What step 6 assigns, and when. *)
Lemma keyword_append_skills_spec (master : list str) (skills : str) :
  match keyword_append_skills master skills with
  | None => forall k, In k master -> k <> [] -> covered skills k
  | Some r =>
      (exists k, In k master /\ k <> [] /\ ~ covered skills k) /\
      exists l, r = join ", " l /\ StronglySorted str_lt l /\
        forall x, In x l <->
          x <> [] /\ (In x (map strip (split ","%char skills))
                      \/ (In x master /\ ~ covered skills x))
  end.
Proof.
  unfold keyword_append_skills.
  set (cur := map strip (split ","%char skills)).
  set (R := list_to_set (map key (List.filter truthy cur)) : gset str).
  set (J := list_to_set (map key (List.filter truthy master)) : gset str).
  assert (HR : forall x, key x ∈ R <-> covered skills x).
  { intros x. unfold R. rewrite elem_of_keys. reflexivity. }
  assert (HJ : forall k, In k master -> k <> [] -> key k ∈ J).
  { intros k Hin Hne. unfold J. apply elem_of_keys. eauto. }
  case_bool_decide as HM.
  - split.
    + apply set_choose_L in HM. destruct HM as (y & Hy).
      apply elem_of_difference in Hy. destruct Hy as [HyJ HyR].
      apply elem_of_keys in HyJ. destruct HyJ as (k & Hin & Hne & <-).
      exists k. repeat split; try assumption. now rewrite <- HR.
    + eexists. split; [reflexivity|]. split; [apply sorted_set_strict|].
      intros x. rewrite sorted_set_In, filter_In, in_app_iff, truthy_true.
      rewrite original_case_missing_In, elem_of_difference, HR. split.
      * intros [[H|(H1 & H2 & H3 & H4)] Hne]; tauto.
      * intros [Hne [H|[H1 H2]]]; [tauto|]. split; [|assumption]. right.
        repeat split; try assumption. now apply HJ.
  - intros k Hin Hne. apply HR.
    destruct (decide (key k ∈ R)) as [H|H]; [assumption|].
    exfalso.
    assert (Hk : key k ∈ J ∖ R) by (apply elem_of_difference; split; auto).
    rewrite HM in Hk. now apply not_elem_of_empty in Hk.
Qed.

Lemma keyword_append_str (master : list str) (o : gmap string pyval) (skills : str) :
  o !! "skills"%string = Some (PStr skills) ->
  keyword_append master o =
    match keyword_append_skills master skills with
    | Some r => <["skills"%string := PStr r]> o
    | None => o
    end.
Proof.
  intros H. unfold keyword_append, keyword_append_try. rewrite H. simpl.
  now destruct (keyword_append_skills master skills).
Qed.

(** C1, as the code has it: after step 6 every keyword of the master list
    that is non-empty and holds no comma appears, up to case and
    surrounding white space, as one of the comma-separated tokens of the
    skills string; and step 6 hands back an object on every input: when
    its [try] block raises, the object it was given. *)
Theorem keyword_append_covers (master : list str) (o : gmap string pyval) :
  (forall e, keyword_append_try master o = Raise e -> keyword_append master o = o) /\
  (forall skills, o !! "skills"%string = Some (PStr skills) ->
     exists r, keyword_append master o !! "skills"%string = Some (PStr r) /\
       forall k, In k master -> k <> [] -> ~ In ","%char k -> present r k).
Proof.
  split.
  - intros e He. unfold keyword_append. now rewrite He.
  - intros skills Hs. rewrite (keyword_append_str _ _ _ Hs).
    pose proof (keyword_append_skills_spec master skills) as Hspec.
    destruct (keyword_append_skills master skills) as [r|].
    + exists r. split; [apply lookup_insert_eq|].
      destruct Hspec as (_ & l & -> & _ & Hl).
      intros k Hin Hne Hc.
      assert (Hdec : covered skills k \/ ~ covered skills k).
      { unfold covered.
        destruct (decide (key k ∈ (list_to_set
          (map key (List.filter truthy (map strip (split ","%char skills)))) : gset str)))
          as [H|H]; rewrite elem_of_keys in H; tauto. }
      destruct Hdec as [(u & Hu & Hune & Hk)|Hnot].
      * destruct (join_present l u) as (t & Ht & Hkt).
        -- apply Hl. tauto.
        -- apply in_map_iff in Hu. destruct Hu as (t & <- & Ht).
           intros H. apply strip_In in H. now apply (split_In_nosep _ _ _ Ht).
        -- exists t. split; [assumption|congruence].
      * apply join_present; [|assumption]. apply Hl. tauto.
    + exists skills. split; [assumption|].
      intros k Hin Hne _. apply covered_present. now apply Hspec.
Qed.

Lemma keyword_append_covers_witness :
  exists r,
    keyword_append ["python"; "Tableau"] {[ "skills"%string := PStr "Python, SQL" ]}
      !! "skills"%string = Some (PStr r)
    /\ present r "Tableau".
Proof.
  destruct (proj2 (keyword_append_covers ["python"; "Tableau"]
                     {[ "skills"%string := PStr "Python, SQL" ]})
              "Python, SQL" (lookup_singleton_eq _ _)) as (r & Hr & Hc).
  exists r. split; [exact Hr|].
  apply Hc; [simpl; tauto|discriminate|].
  simpl. intros H. repeat (destruct H as [H|H]; [discriminate H|]). exact H.
Defined.

(** C1 as stated fails: a keyword that holds a comma is appended as it
    is, and is then no token of the comma-separated string. *)
Lemma keyword_with_comma_is_no_token :
  keyword_append ["a,b"] {[ "skills"%string := PStr "" ]} !! "skills"%string
    = Some (PStr "a,b")
  /\ ~ present "a,b" "a,b".
Proof.
  split; [vm_compute; reflexivity|].
  intros (t & Hin & Hk). simpl in Hin.
  destruct Hin as [<-|[<-|[]]]; vm_compute in Hk; discriminate.
Qed.

(** C2, as the code has it: when every non-empty master keyword is
    already matched by an entry of the skills string, step 6 leaves the
    object as it is; when some keyword is missing, the new skills string
    is the comma-join of a strictly ascending (hence duplicate-free) list
    that holds exactly the non-empty trimmed entries of the old string
    and the non-empty missing keywords, each written as in the master
    list.  For "Python, SQL" and ["python"; "Tableau"; "SQL"] the result
    is "Python, SQL, Tableau". *)
Theorem keyword_append_sorted (master : list str) (o : gmap string pyval) (skills : str) :
  o !! "skills"%string = Some (PStr skills) ->
  ((forall k, In k master -> k <> [] -> covered skills k) ->
   keyword_append master o = o) /\
  ((exists k, In k master /\ k <> [] /\ ~ covered skills k) ->
   exists l,
     keyword_append master o !! "skills"%string = Some (PStr (join ", " l)) /\
     StronglySorted str_lt l /\
     forall x, In x l <->
       x <> [] /\ (In x (map strip (split ","%char skills))
                   \/ (In x master /\ ~ covered skills x))) /\
  (keyword_append ["python"; "Tableau"; "SQL"] {[ "skills"%string := PStr "Python, SQL" ]}
     = {[ "skills"%string := PStr "Python, SQL, Tableau" ]}
   /\ skills_of "Python, SQL, Tableau" = ["Python"; "SQL"; "Tableau"]).
Proof.
  intros Hs. rewrite (keyword_append_str _ _ _ Hs).
  pose proof (keyword_append_skills_spec master skills) as Hspec.
  split; [|split].
  - intros Hall. destruct (keyword_append_skills master skills) as [r|]; [|reflexivity].
    destruct Hspec as ((k & Hin & Hne & Hnot) & _).
    exfalso. apply Hnot. now apply Hall.
  - intros (k & Hin & Hne & Hnot).
    destruct (keyword_append_skills master skills) as [r|].
    + destruct Hspec as (_ & l & -> & Hsorted & Hl).
      exists l. split; [apply lookup_insert_eq|]. split; assumption.
    + exfalso. apply Hnot. now apply Hspec.
  - split; [apply map_eq; intros i|]; vm_compute; reflexivity.
Qed.

Lemma keyword_append_sorted_witness :
  exists l,
    keyword_append ["Tableau"] {[ "skills"%string := PStr "SQL, Python" ]}
      !! "skills"%string = Some (PStr (join ", " l))
    /\ StronglySorted str_lt l.
Proof.
  destruct (keyword_append_sorted ["Tableau"] {[ "skills"%string := PStr "SQL, Python" ]}
              "SQL, Python" (lookup_singleton_eq _ _)) as (_ & H & _).
  destruct H as (l & Hl & Hs & _).
  - exists "Tableau". split; [simpl; tauto|]. split; [discriminate|].
    intros (u & Hu & _ & Hk). simpl in Hu.
    destruct Hu as [<-|[<-|[]]]; vm_compute in Hk; discriminate.
  - exists l. split; assumption.
Defined.

(** C2 as stated fails: with no keyword missing the skills string stays
    as the model wrote it, unsorted and with its repeated entry. *)
Lemma keyword_append_leaves_unsorted :
  keyword_append ["python"] {[ "skills"%string := PStr "SQL, Python, SQL" ]}
    !! "skills"%string = Some (PStr "SQL, Python, SQL")
  /\ skills_of "SQL, Python, SQL" = ["SQL"; "Python"; "SQL"]
  /\ ~ List.NoDup (skills_of "SQL, Python, SQL")
  /\ ~ StronglySorted str_le (skills_of "SQL, Python, SQL").
Proof.
  split; [vm_compute; reflexivity|]. split; [vm_compute; reflexivity|]. split.
  - intros H. vm_compute in H. inversion H as [|? ? Hnin _]; subst.
    apply Hnin. simpl. tauto.
  - intros H. vm_compute in H. inversion H as [|? ? _ Hall]; subst.
    inversion Hall as [|? ? Hle _]; subst. apply Hle. reflexivity.
Qed.

(** ** The master keyword list *)

(** C3, as the code has it: the master list is the strictly ascending
    list of the distinct strings among the non-empty stage-1 keywords and
    the verified-missing keywords; strings are told apart exactly, case
    included. *)
Theorem master_keyword_list_exact
    (hard_skills tools domain_phrases soft_skills missing_keywords : list str) :
  let skills_call1 :=
    jd_all_skills_set_call1
      (jd_all_skills_list_call1 hard_skills tools domain_phrases soft_skills) in
  StronglySorted str_lt (master_keyword_list skills_call1 missing_keywords) /\
  forall x,
    In x (master_keyword_list skills_call1 missing_keywords)
    <-> (x <> [] /\ (In x hard_skills \/ In x tools \/ In x domain_phrases
                     \/ In x soft_skills))
        \/ In x missing_keywords.
Proof.
  unfold master_keyword_list, jd_all_skills_set_call1, jd_all_skills_list_call1.
  split.
  - apply sorted_set_strict.
  - intros x.
    rewrite sorted_set_In, in_app_iff, sorted_set_In, filter_In, truthy_true.
    rewrite !in_app_iff. tauto.
Qed.

(** C3 as stated fails: two spellings of one keyword that differ in case
    are both kept. *)
Lemma master_keyword_list_keeps_both_casings :
  master_keyword_list
    (jd_all_skills_set_call1 (jd_all_skills_list_call1 ["Python"] [] [] []))
    ["python"]
    = ["Python"; "python"]
  /\ key "Python" = key "python"
  /\ ~ List.NoDup
        (map key
           (master_keyword_list
              (jd_all_skills_set_call1 (jd_all_skills_list_call1 ["Python"] [] [] []))
              ["python"])).
Proof.
  split; [vm_compute; reflexivity|]. split; [vm_compute; reflexivity|].
  intros H. vm_compute in H. inversion H as [|? ? Hnin _]; subst.
  apply Hnin. simpl. tauto.
Qed.

(** ** Step 7 *)

Lemma join_nil_or (l : list str) :
  match l with [] => "" | _ :: _ => join ", " l end = join ", " l.
Proof. now destruct l. Qed.

(** The three ways step 7 ends on an object whose skills are a string:
    the empty string, the partition by a set of visible keys, the
    fallback. *)
Lemma partition_skills_cases (jd o : gmap string pyval) (skills : str) :
  o !! "skills"%string = Some (PStr skills) ->
  exists vis inv,
    partition_skills jd o =
      delete "skills"%string
        (<["skills_invisible"%string := PStr inv]>
           (<["skills_visible"%string := PStr vis]> o))
    /\ ((skills = [] /\ vis = [] /\ inv = [])
        \/ (exists visible_set : gset str,
              vis = join ", " (List.filter
                      (fun skill => bool_decide (lower skill ∈ visible_set))
                      (skills_of skills))
              /\ inv = join ", " (List.filter
                      (fun skill => negb (bool_decide (lower skill ∈ visible_set)))
                      (skills_of skills)))
        \/ (vis = skills /\ inv = [])).
Proof.
  intros Hs. unfold partition_skills, partition_skills_try. rewrite Hs.
  cbn [from_option id py_truthy str_method mbind res_bind].
  destruct (truthy skills) eqn:Ht.
  2: { destruct skills; [|discriminate].
       exists [], []. split; [reflexivity|]. left. auto. }
  set (fallback := delete "skills"%string
         (<["skills_invisible"%string := PStr ""]>
            (<["skills_visible"%string := PStr skills]> o))).
  assert (Hfb : exists vis inv,
    fallback = delete "skills"%string
        (<["skills_invisible"%string := PStr inv]>
           (<["skills_visible"%string := PStr vis]> o))
    /\ ((skills = [] /\ vis = [] /\ inv = [])
        \/ (exists visible_set : gset str,
              vis = join ", " (List.filter
                      (fun skill => bool_decide (lower skill ∈ visible_set))
                      (skills_of skills))
              /\ inv = join ", " (List.filter
                      (fun skill => negb (bool_decide (lower skill ∈ visible_set)))
                      (skills_of skills)))
        \/ (vis = skills /\ inv = []))).
  { exists skills, []. split; [reflexivity|]. right. right. auto. }
  destruct (py_get _ "hard_skills" _) as [hard|?];
    cbn [mbind res_bind]; [|exact Hfb].
  destruct (stripped_tier hard) as [hard_skills|?];
    cbn [mbind res_bind]; [|exact Hfb].
  destruct (py_get _ "soft_skills" _) as [soft|?];
    cbn [mbind res_bind]; [|exact Hfb].
  destruct (stripped_tier soft) as [soft_skills|?];
    cbn [mbind res_bind]; [|exact Hfb].
  rewrite !join_nil_or. fold (skills_of skills).
  eexists _, _. split; [reflexivity|]. right. left.
  exists (list_to_set (map lower (hard_skills ++ soft_skills))). split; reflexivity.
Qed.

Lemma skill_set_join_filter (P : str -> bool) (skills x : str) :
  In x (skill_set (join ", " (List.filter P (skills_of skills))))
  <-> exists s, In s (skills_of skills) /\ P s = true /\ lower s = x.
Proof.
  unfold skill_set.
  rewrite skills_of_join by (apply clean_filter, skills_of_clean).
  rewrite in_map_iff. split.
  - intros (s & Hl & Hin). apply filter_In in Hin. exists s. tauto.
  - intros (s & Hin & HP & Hl). exists s. split; [assumption|].
    apply filter_In. tauto.
Qed.

Lemma skill_set_empty (x : str) : ~ In x (skill_set "").
Proof. intros []. Qed.

(** C4: on an object whose skills are a string, step 7 stores two
    strings; as case-insensitive sets the skills of the two together are
    the skills of the input, and no skill is in both; an empty skills
    string gives two empty strings. *)
Theorem partition_skills_complete (jd o : gmap string pyval) (skills : str) :
  o !! "skills"%string = Some (PStr skills) ->
  exists vis inv,
    partition_skills jd o !! "skills_visible"%string = Some (PStr vis) /\
    partition_skills jd o !! "skills_invisible"%string = Some (PStr inv) /\
    (forall x, In x (skill_set vis) \/ In x (skill_set inv) <-> In x (skill_set skills)) /\
    (forall x, ~ (In x (skill_set vis) /\ In x (skill_set inv))) /\
    (skills = "" -> vis = "" /\ inv = "").
Proof.
  intros Hs. destruct (partition_skills_cases jd o skills Hs) as (vis & inv & -> & Hc).
  exists vis, inv.
  split; [now rewrite lookup_delete_ne, lookup_insert_ne, lookup_insert_eq|].
  split; [now rewrite lookup_delete_ne, lookup_insert_eq|].
  destruct Hc as [(-> & -> & ->)|[(V & -> & ->)|(-> & ->)]].
  - split; [|split].
    + intros x. tauto.
    + intros x [H _]. now apply skill_set_empty in H.
    + auto.
  - split; [|split].
    + intros x. rewrite !skill_set_join_filter. unfold skill_set.
      rewrite in_map_iff. split.
      * intros [(s & Hin & _ & Hl)|(s & Hin & _ & Hl)]; eauto.
      * intros (s & Hl & Hin).
        destruct (bool_decide (lower s ∈ V)) eqn:E; [left|right];
          exists s; rewrite E; auto.
    + intros x. rewrite !skill_set_join_filter.
      intros [(s & _ & Hs1 & <-) (s' & _ & Hs2 & Heq)].
      rewrite Heq, Hs1 in Hs2. discriminate.
    + intros ->. split; reflexivity.
  - split; [|split].
    + intros x. split; [|tauto]. intros [H|H]; [assumption|].
      now apply skill_set_empty in H.
    + intros x [_ H]. now apply skill_set_empty in H.
    + intros ->. auto.
Qed.

Lemma partition_skills_complete_witness :
  exists vis inv,
    partition_skills
      {[ "keywords"%string := PDict {[ "hard_skills"%string := PList [PStr "python"] ]} ]}
      {[ "skills"%string := PStr "Python, Excel" ]}
      !! "skills_visible"%string = Some (PStr vis) /\
    partition_skills
      {[ "keywords"%string := PDict {[ "hard_skills"%string := PList [PStr "python"] ]} ]}
      {[ "skills"%string := PStr "Python, Excel" ]}
      !! "skills_invisible"%string = Some (PStr inv) /\
    (forall x, ~ (In x (skill_set vis) /\ In x (skill_set inv))).
Proof.
  destruct (partition_skills_complete
              {[ "keywords"%string := PDict {[ "hard_skills"%string := PList [PStr "python"] ]} ]}
              {[ "skills"%string := PStr "Python, Excel" ]}
              "Python, Excel" (lookup_singleton_eq _ _))
    as (vis & inv & Hv & Hi & _ & Hd & _).
  exists vis, inv. auto.
Defined.

(** C10: on every path of step 7 (normal, empty skills, fallback), when
    the incoming ['skills'] value, if there is one, is a string, the
    object that leaves the step has both ['skills_visible'] and
    ['skills_invisible'] as strings and no ['skills'] field. *)
Theorem partition_skills_fields (jd o : gmap string pyval) :
  (forall v, o !! "skills"%string = Some v -> exists s, v = PStr s) ->
  exists vis inv,
    partition_skills jd o !! "skills_visible"%string = Some (PStr vis) /\
    partition_skills jd o !! "skills_invisible"%string = Some (PStr inv) /\
    partition_skills jd o !! "skills"%string = None.
Proof.
  intros Hstr. destruct (o !! "skills"%string) as [v|] eqn:Hs.
  - destruct (Hstr v eq_refl) as (s & ->).
    destruct (partition_skills_cases jd o s Hs) as (vis & inv & -> & _).
    exists vis, inv.
    split; [now rewrite lookup_delete_ne, lookup_insert_ne, lookup_insert_eq|].
    split; [now rewrite lookup_delete_ne, lookup_insert_eq|].
    apply lookup_delete_eq.
  - unfold partition_skills, partition_skills_try. rewrite Hs.
    cbn [from_option id py_truthy truthy].
    exists "", "".
    split; [now rewrite lookup_delete_ne, lookup_insert_ne, lookup_insert_eq|].
    split; [now rewrite lookup_delete_ne, lookup_insert_eq|].
    apply lookup_delete_eq.
Qed.

(** The fallback path at work: a tier entry that is not a string makes
    [skill.strip()] raise, and all skills are kept visible. *)
Lemma partition_skills_fields_witness :
  exists vis inv,
    partition_skills
      {[ "keywords"%string := PDict {[ "hard_skills"%string := PList [PNum 1] ]} ]}
      {[ "skills"%string := PStr "Python, Excel" ]}
      !! "skills_visible"%string = Some (PStr vis) /\
    partition_skills
      {[ "keywords"%string := PDict {[ "hard_skills"%string := PList [PNum 1] ]} ]}
      {[ "skills"%string := PStr "Python, Excel" ]}
      !! "skills_invisible"%string = Some (PStr inv) /\
    partition_skills
      {[ "keywords"%string := PDict {[ "hard_skills"%string := PList [PNum 1] ]} ]}
      {[ "skills"%string := PStr "Python, Excel" ]}
      !! "skills"%string = None.
Proof.
  apply (partition_skills_fields
           {[ "keywords"%string := PDict {[ "hard_skills"%string := PList [PNum 1] ]} ]}
           {[ "skills"%string := PStr "Python, Excel" ]}).
  intros v Hv. rewrite lookup_singleton_eq in Hv. inversion Hv. eauto.
Defined.

Example partition_skills_fallback :
  partition_skills
    {[ "keywords"%string := PDict {[ "hard_skills"%string := PList [PNum 1] ]} ]}
    {[ "skills"%string := PStr "Python, Excel" ]}
  = {[ "skills_visible"%string := PStr "Python, Excel";
       "skills_invisible"%string := PStr "" ]}.
Proof. apply map_eq. intros i. vm_compute. reflexivity. Qed.

Example partition_skills_absent :
  partition_skills ∅ ∅
  = {[ "skills_visible"%string := PStr ""; "skills_invisible"%string := PStr "" ]}.
Proof. apply map_eq. intros i. vm_compute. reflexivity. Qed.

(** ** The gateway *)

Lemma attempts_retry (service : nat -> answer) (remaining attempt : nat) :
  (exists code text json,
     service attempt = Response code text json /\ (500 <= code <= 599)%Z) ->
  attempts service (S remaining) attempt =
    (Post attempt :: Sleep (delay attempt) :: fst (attempts service remaining (S attempt)),
     snd (attempts service remaining (S attempt))).
Proof.
  intros (code & text & json & Hs & Hc). simpl. rewrite Hs.
  unfold is_success.
  replace (code <=? 299)%Z with false by (symmetry; apply Z.leb_gt; lia).
  replace (code <? 500)%Z with false by (symmetry; apply Z.ltb_ge; lia).
  rewrite !andb_false_r.
  now destruct (attempts service remaining (S attempt)).
Qed.

(** C7: against a service that answers every POST with a 5xx status the
    gateway POSTs exactly five times, sleeps [2^k] seconds plus [k]
    tenths of a second after the POST number [k], and then returns the
    generic failure value; it does not raise.  The value returned is a
    failure value for the callers: it has the ["error"] key they test
    for, with the message of the last line of the function. *)
Theorem call_gemini_api_retry_ceiling (service : nat -> answer) :
  (forall n, exists code text json,
     service n = Response code text json /\ (500 <= code <= 599)%Z) ->
  call_gemini_api service =
    ([Post 0; Sleep (delay 0); Post 1; Sleep (delay 1); Post 2; Sleep (delay 2);
      Post 3; Sleep (delay 3); Post 4; Sleep (delay 4)],
     Ok retries_exhausted)
  /\ posts (fst (call_gemini_api service)) = [0; 1; 2; 3; 4]
  /\ sleeps (fst (call_gemini_api service)) = [1000; 2100; 4200; 8300; 16400]%Z
  /\ (forall k, delay k = (1000 * 2 ^ Z.of_nat k + 100 * Z.of_nat k)%Z)
  /\ (exists result,
        snd (call_gemini_api service) = Ok result
        /\ is_Some (result !! "error"%string)
        /\ result !! "error"%string
           = Some (PStr "API call failed after several retries.")).
Proof.
  intros H.
  assert (E : call_gemini_api service =
    ([Post 0; Sleep (delay 0); Post 1; Sleep (delay 1); Post 2; Sleep (delay 2);
      Post 3; Sleep (delay 3); Post 4; Sleep (delay 4)],
     Ok retries_exhausted)).
  { unfold call_gemini_api, max_retries.
    rewrite !attempts_retry by apply H. reflexivity. }
  rewrite E. split; [reflexivity|]. split; [reflexivity|]. split; [reflexivity|].
  split; [intros k; unfold delay, base_delay; lia|].
  exists retries_exhausted. split; [reflexivity|].
  unfold retries_exhausted. rewrite lookup_singleton_eq. eauto.
Qed.

Lemma call_gemini_api_retry_ceiling_witness :
  call_gemini_api (fun _ => Response 503 "Service Unavailable" None) =
    ([Post 0; Sleep (delay 0); Post 1; Sleep (delay 1); Post 2; Sleep (delay 2);
      Post 3; Sleep (delay 3); Post 4; Sleep (delay 4)],
     Ok retries_exhausted).
Proof.
  apply (call_gemini_api_retry_ceiling (fun _ => Response 503 "Service Unavailable" None)).
  intros n. exists 503%Z, "Service Unavailable", None. split; [reflexivity|lia].
Defined.

(** A client error ends the loop at once, and a transport error is
    retried like a server error. *)
Example call_gemini_api_client_error :
  fst (call_gemini_api (fun _ => Response 404 "Not Found" None)) = [Post 0].
Proof. reflexivity. Qed.

Example call_gemini_api_transport_error :
  posts (fst (call_gemini_api (fun _ => RequestError))) = [0; 1; 2; 3; 4].
Proof. reflexivity. Qed.

(** ** The verification stage *)

Lemma verification_stage_api_error (json_loads : str -> option pyval)
    (skills_call1 : list str) (api_response : gmap string pyval) :
  is_Some (api_response !! "error"%string) ->
  verification_stage json_loads skills_call1 api_response
    = inr (sorted_set skills_call1).
Proof.
  intros H. unfold verification_stage, verified_missing_keywords.
  rewrite bool_decide_eq_true_2 by assumption. simpl.
  unfold master_keyword_list. now rewrite app_nil_r.
Qed.

Lemma verification_stage_not_json (json_loads : str -> option pyval)
    (skills_call1 : list str) (text : str) :
  json_loads (default (strip_fences text) (search_braces (strip_fences text))) = None ->
  verification_stage json_loads skills_call1 (reply_with_text text)
    = inr (sorted_set skills_call1).
Proof.
  intros H. unfold verification_stage, verified_missing_keywords.
  replace (bool_decide (is_Some (reply_with_text text !! "error"%string))) with false
    by (symmetry; apply bool_decide_eq_false_2; vm_compute; intros [? ?]; discriminate).
  replace (response_text (reply_with_text text)) with (Ok (PStr text) : res pyval)
    by (vm_compute; reflexivity).
  unfold parse_missing_keywords. cbn [str_method mbind res_bind].
  rewrite H. simpl. unfold master_keyword_list. now rewrite app_nil_r.
Qed.

(** C8 fails on the code: a reply that is valid JSON but no object (here
    the empty list, which the prompt itself calls for when nothing is
    missing) makes [verification_data.get] raise [AttributeError], which
    the [except] clause does not name; the exception leaves the endpoint
    and no master list, hence no resume, is produced. *)
Theorem verification_stage_aborts (json_loads : str -> option pyval)
    (skills_call1 : list str) :
  json_loads "[]" = Some (PList []) ->
  verification_stage json_loads skills_call1 (reply_with_text "[]")
    = inl (Exception AttributeError).
Proof.
  intros H. unfold verification_stage, verified_missing_keywords.
  replace (bool_decide (is_Some (reply_with_text "[]" !! "error"%string))) with false
    by (symmetry; apply bool_decide_eq_false_2; vm_compute; intros [? ?]; discriminate).
  replace (response_text (reply_with_text "[]")) with (Ok (PStr "[]") : res pyval)
    by (vm_compute; reflexivity).
  unfold parse_missing_keywords. cbn [str_method mbind res_bind].
  replace (default (strip_fences "[]") (search_braces (strip_fences "[]"))) with ("[]" : str)
    by (vm_compute; reflexivity).
  rewrite H. reflexivity.
Qed.

Lemma verification_stage_aborts_witness :
  verification_stage (fun _ => Some (PList [])) ["SQL"] (reply_with_text "[]")
    = inl (Exception AttributeError).
Proof.
  apply (verification_stage_aborts (fun _ => Some (PList [])) ["SQL"]). reflexivity.
Defined.

(** An empty candidate list: the [IndexError] is caught, and the handler
    then reads the text that was never bound. *)
Example verification_stage_no_candidate (json_loads : str -> option pyval) :
  verification_stage json_loads ["SQL"] {[ "candidates"%string := PList [] ]}
    = inl UnboundLocalError.
Proof. vm_compute. reflexivity. Qed.

(** A value under ["missing_keywords"] that is no list. *)
Example verification_stage_missing_null :
  verification_stage
    (fun _ => Some (PDict {[ "missing_keywords"%string := PNull ]}))
    ["SQL"] (reply_with_text "{}")
    = inl (Exception TypeError).
Proof. vm_compute. reflexivity. Qed.

(** ** [replace] *)

Lemma replace_from_skipn (old new : str) (k : nat) (s : str) :
  replace_from old new k s = replace old new (skipn k s).
Proof.
  unfold replace. revert k. induction s as [|c s IH]; intros [|k]; try reflexivity.
  simpl. apply IH.
Qed.

Lemma startswith_app (p s : str) : startswith p (p ++ s) = true.
Proof.
  induction p as [|c p IH]; simpl; [reflexivity|].
  now rewrite Ascii.eqb_refl.
Qed.

(** At a match the new text is written and the scan goes on behind the
    match. *)
Lemma replace_hit (h : ascii) (old' new b : str) :
  replace (h :: old') new ((h :: old') ++ b) = new ++ replace (h :: old') new b.
Proof.
  unfold replace at 1. cbn [replace_from app].
  change (h :: old' ++ b) with ((h :: old') ++ b). rewrite startswith_app.
  rewrite replace_from_skipn.
  replace (List.length (h :: old') - 1) with (List.length old') by (simpl; lia).
  now rewrite skipn_app, skipn_all, Nat.sub_diag.
Qed.

(** Text without the first character of [old] is copied. *)
Lemma replace_skip (h : ascii) (old' new a b : str) :
  ~ In h a ->
  replace (h :: old') new (a ++ b) = a ++ replace (h :: old') new b.
Proof.
  induction a as [|c a IH]; intros Hn; [reflexivity|].
  unfold replace in *. cbn [app replace_from startswith].
  destruct (Ascii.eqb_spec h c) as [->|Hne]; [exfalso; apply Hn; now left|].
  cbn [andb]. f_equal. apply IH. intros H. apply Hn. now right.
Qed.

(** Another placeholder is copied too. *)
Lemma replace_other (h : ascii) (old' new p' b : str) :
  startswith (h :: old') (h :: p' ++ b) = false -> ~ In h p' ->
  replace (h :: old') new ((h :: p') ++ b) = (h :: p') ++ replace (h :: old') new b.
Proof.
  intros Hs Hn. unfold replace at 1. cbn [app replace_from]. rewrite Hs.
  cbn [app]. f_equal. apply (replace_skip h old' new p' b Hn).
Qed.

Lemma replace_nil (old new : str) : replace old new [] = [].
Proof. reflexivity. Qed.

Lemma not_In_forallb (h : ascii) (a : str) :
  forallb (fun c => negb (Ascii.eqb c h)) a = true -> ~ In h a.
Proof.
  intros H Hin. rewrite forallb_forall in H. specialize (H h Hin).
  now rewrite Ascii.eqb_refl in H.
Qed.

Lemma uint_no_bracket (d : Decimal.uint) :
  ~ In "["%char (list_ascii_of_string (NilEmpty.string_of_uint d)).
Proof.
  induction d; simpl; intros H; try (destruct H as [H|H]; [discriminate H|]); tauto.
Qed.

Lemma str_of_Z_no_bracket (n : Z) : ~ In "["%char (str_of_Z n).
Proof.
  unfold str_of_Z.
  assert (H : forall d, ~ In "["%char (list_ascii_of_string (NilZero.string_of_uint d))).
  { intros d. destruct d; try apply uint_no_bracket.
    simpl. intros [H|[]]. discriminate. }
  destruct (Z.to_int n) as [d|d]; simpl; [apply H|].
  intros [Hd|Hd]; [discriminate|]. now apply (H d).
Qed.

(** ** The transform prompt *)

(** C9, as the code has it: a form field that is absent takes the
    default 2, a submitted integer is used as it is, and the decimal
    writing of both values is what replaces the two placeholders of the
    prompt (stated for a resume text and a job description without an
    opening bracket, which cannot contain a placeholder).  Nothing
    restricts the multiplier to 2, 3 or 5. *)
Theorem transform_prompt_values (original_resume_text job_description : str)
    (time_in_weeks ai_multiplier : option Z) :
  ~ In "["%char original_resume_text -> ~ In "["%char job_description ->
  transform_prompt_of_request original_resume_text job_description
      time_in_weeks ai_multiplier
  = "Here is the resume to transform:

" ++ original_resume_text ++ "

Here is the job description:

" ++ job_description ++ "

Time in weeks for project development: "
    ++ str_of_Z (match time_in_weeks with Some n => n | None => 2 end) ++ "

AI Multiplier for project scaling: "
    ++ str_of_Z (match ai_multiplier with Some n => n | None => 2 end) ++ "
".
Proof.
  intros Hr Hj. unfold transform_prompt_of_request, transform_prompt, Form.
  set (tw := match time_in_weeks with Some n => n | None => 2%Z end).
  set (am := match ai_multiplier with Some n => n | None => 2%Z end).
  pose proof (str_of_Z_no_bracket tw) as Htw.
  pose proof (str_of_Z_no_bracket am) as Ham.
  change RESUME_TRANSFORM_PROMPT_TEMPLATE with
    ("Here is the resume to transform:

" ++ "[Paste your resume here]" ++ "

Here is the job description:

" ++ "[Paste job description here]" ++ "

Time in weeks for project development: " ++ "[Optional: TIME_IN_WEEKS e.g., 2]" ++ "

AI Multiplier for project scaling: " ++ "[Optional: AI_MULTIPLIER e.g., 3]" ++ "
" ++ []).
  repeat first
    [ rewrite replace_nil
    | rewrite replace_hit
    | rewrite replace_skip by first [assumption | apply not_In_forallb; reflexivity]
    | rewrite replace_other by first [reflexivity | apply not_In_forallb; reflexivity] ].
  now rewrite app_nil_r.
Qed.

Lemma transform_prompt_values_witness :
  transform_prompt_of_request "Jane Doe" "Analyst" None (Some 3%Z)
  = "Here is the resume to transform:

Jane Doe

Here is the job description:

Analyst

Time in weeks for project development: 2

AI Multiplier for project scaling: 3
".
Proof.
  apply (transform_prompt_values "Jane Doe" "Analyst" None (Some 3%Z));
    apply not_In_forallb; reflexivity.
Defined.

(** C9 as stated fails: a multiplier outside 2, 3 and 5 reaches the
    prompt unchanged. *)
Lemma multiplier_is_not_clamped :
  Form 2 (Some 7%Z) = 7%Z
  /\ ~ In (Form 2 (Some 7%Z)) [2; 3; 5]%Z
  /\ transform_prompt_of_request "Jane Doe" "Analyst" (Some 0%Z) (Some 7%Z)
     = "Here is the resume to transform:

Jane Doe

Here is the job description:

Analyst

Time in weeks for project development: 0

AI Multiplier for project scaling: 7
".
Proof.
  split; [reflexivity|]. split; [|vm_compute; reflexivity].
  simpl. intros [H|[H|[H|[]]]]; discriminate.
Qed.

(** ** Occurrences under [replace] *)

Lemma startswith_eq (p s : str) :
  startswith p s = true -> s = p ++ skipn (List.length p) s.
Proof.
  revert s. induction p as [|a p IH]; intros [|b s]; simpl; try discriminate; auto.
  intros H. apply andb_true_iff in H. destruct H as [Hab Hp].
  apply Ascii.eqb_eq in Hab. subst b. f_equal. now apply IH.
Qed.

Lemma replace_replaced (h : ascii) (old' new s : str) :
  Replaced (h :: old') new s (replace (h :: old') new s).
Proof.
  remember (List.length s) as n eqn:Hn. revert s Hn.
  induction n as [n IH] using lt_wf_ind. intros s Hn.
  destruct s as [|c s]; [constructor|].
  unfold replace. cbn [replace_from].
  destruct (startswith (h :: old') (c :: s)) eqn:E.
  - rewrite replace_from_skipn.
    replace (List.length (h :: old') - 1) with (List.length old') by (simpl; lia).
    pose proof (startswith_eq _ _ E) as Hs.
    change (skipn (List.length (h :: old')) (c :: s))
      with (skipn (List.length old') s) in Hs.
    rewrite Hs at 1. constructor.
    apply (IH (List.length (skipn (List.length old') s))); [|reflexivity].
    subst n. rewrite length_skipn. simpl. lia.
  - constructor; [assumption|].
    apply (IH (List.length s)); [subst n; simpl; lia|reflexivity].
Qed.

Lemma replaced_rewrites (old new s r : str) :
  Replaced old new s r -> Rewrites old new s r.
Proof. induction 1; constructor; assumption. Qed.

Lemma rewrites_sym (x y s r : str) : Rewrites x y s r -> Rewrites y x r s.
Proof. induction 1; constructor; assumption. Qed.

Lemma tails_self (s : str) : In s (tails s).
Proof. destruct s; simpl; auto. Qed.

Lemma tails_tail (c : ascii) (q p : str) : In (c :: q) (tails p) -> In q (tails p).
Proof.
  induction p as [|a p IH]; simpl.
  - intros [H|[]]. discriminate.
  - intros [H|H].
    + injection H as _ ->. right. apply tails_self.
    + right. now apply IH.
Qed.

Lemma tails_app (a q : str) : In q (tails (a ++ q)).
Proof.
  induction a as [|c a IH]; [apply tails_self|]. simpl. now right.
Qed.

Lemma tails_split (q p : str) : In q (tails p) -> exists a, p = a ++ q.
Proof.
  induction p as [|c p IH]; simpl.
  - intros [<-|[]]. now exists [].
  - intros [<-|H]; [now exists []|].
    destruct (IH H) as (a & ->). now exists (c :: a).
Qed.

Lemma occurs_tails (x p : str) :
  occurs x p = true <-> exists q, In q (tails p) /\ startswith x q = true.
Proof.
  induction p as [|c p IH].
  - simpl. rewrite orb_false_r. split.
    + intros H. exists []. auto.
    + intros (q & [<-|[]] & H). assumption.
  - cbn [occurs tails]. rewrite orb_true_iff, IH. split.
    + intros [H|(q & Hq & H)].
      * exists (c :: p). split; [now left|assumption].
      * exists q. split; [now right|assumption].
    + intros (q & [<-|Hq] & H); [now left|]. right. eauto.
Qed.

Lemma overlaps_intro (p x q : str) :
  In q (tails p) -> q <> [] -> startswith q x = true -> overlaps p x = true.
Proof.
  intros Hin Hne Hs. unfold overlaps. apply existsb_exists. exists q.
  split; [assumption|]. apply andb_true_iff. split; [now apply truthy_true|assumption].
Qed.

Lemma startswith_app_cases (q x s : str) :
  startswith q (x ++ s) = true -> startswith q x = true \/ startswith x q = true.
Proof.
  revert x. induction q as [|a q IH]; intros [|b x]; simpl; auto.
  intros H. apply andb_true_iff in H. destruct H as [Hab H].
  apply Ascii.eqb_eq in Hab. subst b. rewrite Ascii.eqb_refl. simpl. now apply IH.
Qed.

Lemma startswith_app_split (p a b : str) :
  startswith p (a ++ b) = true ->
  startswith p a = true \/ exists p2, p = a ++ p2 /\ startswith p2 b = true.
Proof.
  revert a. induction p as [|c p IH]; intros [|d a]; simpl; auto.
  - intros H. right. now exists (c :: p).
  - intros H. apply andb_true_iff in H. destruct H as [Hcd H].
    apply Ascii.eqb_eq in Hcd. subst d. rewrite Ascii.eqb_refl. simpl.
    destruct (IH a H) as [H1|(p2 & -> & H2)]; [now left|].
    right. now exists p2.
Qed.

Lemma occurs_app_cases (p a b : str) :
  occurs p (a ++ b) = true ->
  occurs p b = true
  \/ exists a', In a' (tails a) /\ a' <> [] /\ startswith p (a' ++ b) = true.
Proof.
  induction a as [|c a IH]; [now left|].
  cbn [app occurs]. rewrite orb_true_iff. intros [H|H].
  - right. exists (c :: a). split; [now left|]. split; [discriminate|assumption].
  - destruct (IH H) as [Hb|(a' & Hin & Hne & Hs)]; [now left|].
    right. exists a'. split; [now right|]. auto.
Qed.

Lemma occurs_app_r (p a b : str) : occurs p b = true -> occurs p (a ++ b) = true.
Proof.
  intros H. induction a as [|c a IH]; [assumption|].
  cbn [app occurs]. rewrite IH. apply orb_true_r.
Qed.

Lemma occurs_startswith (p s : str) : startswith p s = true -> occurs p s = true.
Proof. intros H. destruct s; simpl in *; rewrite H; reflexivity. Qed.

Lemma startswith_app_both (a p s : str) :
  startswith p s = true -> startswith (a ++ p) (a ++ s) = true.
Proof.
  intros H. induction a as [|c a IH]; [assumption|].
  simpl. now rewrite Ascii.eqb_refl.
Qed.

Lemma startswith_trans (a b s : str) :
  startswith a b = true -> startswith b s = true -> startswith a s = true.
Proof.
  revert b s. induction a as [|x a IH]; intros [|y b] [|z s]; simpl; try discriminate; auto.
  intros H1 H2. apply andb_true_iff in H1, H2. destruct H1 as [E1 H1], H2 as [E2 H2].
  apply Ascii.eqb_eq in E1, E2. subst. rewrite Ascii.eqb_refl. simpl. eauto.
Qed.

(** [a in b] and [b in s] give [a in s]. *)
Lemma occurs_trans (a b s : str) :
  occurs a b = true -> occurs b s = true -> occurs a s = true.
Proof.
  intros Hab Hbs. apply occurs_tails in Hbs. destruct Hbs as (q & Hq & Hs).
  apply tails_split in Hq. destruct Hq as (u & ->).
  apply occurs_app_r. apply startswith_eq in Hs. rewrite Hs.
  apply occurs_tails in Hab. destruct Hab as (q' & Hq' & Hs').
  apply tails_split in Hq'. destruct Hq' as (v & ->).
  rewrite <- app_assoc. apply occurs_app_r.
  apply occurs_startswith.
  apply startswith_eq in Hs'. rewrite Hs', <- app_assoc. apply startswith_app.
Qed.

Lemma endswith_split (q y : str) : endswith q y = true -> exists y0, y = y0 ++ q.
Proof.
  unfold endswith. intros H. apply startswith_eq in H.
  exists (rev (skipn (List.length (rev q)) (rev y))).
  rewrite <- (rev_involutive y), H at 1. now rewrite rev_app_distr, rev_involutive.
Qed.

(** A prefix that is a suffix of [p] is carried along, when no suffix of
    [p] runs into [x] and [x] is not inside [p]. *)
Lemma startswith_transfer (x y p s r : str) :
  Rewrites x y s r -> overlaps p x = false -> occurs x p = false ->
  forall q, In q (tails p) -> startswith q s = true -> startswith q r = true.
Proof.
  intros Hrw Hov Hocc. induction Hrw as [|s r Hrw IH|c s r Hrw IH]; intros q Hq Hs.
  - assumption.
  - destruct q as [|a q]; [reflexivity|]. exfalso.
    destruct (startswith_app_cases _ _ _ Hs) as [H|H].
    + rewrite (overlaps_intro p x (a :: q)) in Hov; [discriminate|auto|discriminate|auto].
    + assert (Ho : occurs x p = true) by (apply occurs_tails; eauto).
      congruence.
  - destruct q as [|a q]; [reflexivity|]. simpl in *.
    apply andb_true_iff in Hs. destruct Hs as [-> Hs]. simpl.
    apply IH; [|assumption]. now apply tails_tail in Hq.
Qed.

(** An occurrence of [p] survives the rewriting of [x] to [y]. *)
Lemma occurs_transfer (x y p s r : str) :
  Rewrites x y s r -> transfers p x y = true ->
  occurs p s = true -> occurs p r = true.
Proof.
  intros Hrw Ht. unfold transfers in Ht.
  rewrite !andb_true_iff, !negb_true_iff in Ht.
  destruct Ht as [[[Hov Hxp] Hpx] Hb].
  induction Hrw as [|s r Hrw IH|c s r Hrw IH]; intros Ho.
  - assumption.
  - destruct (occurs_app_cases _ _ _ Ho) as [H|(a' & Hin & Hne & Hs)].
    + apply occurs_app_r. now apply IH.
    + destruct (startswith_app_split _ _ _ Hs) as [H|(p2 & -> & H2)].
      * assert (occurs p x = true) by (apply occurs_tails; eauto). congruence.
      * unfold borders_kept in Hb. rewrite forallb_forall in Hb.
        specialize (Hb a' Hin).
        rewrite startswith_app in Hb.
        replace (truthy a') with true in Hb by (symmetry; now apply truthy_true).
        simpl in Hb. destruct (endswith_split _ _ Hb) as (y0 & ->).
        rewrite <- app_assoc. apply occurs_app_r, occurs_startswith.
        apply startswith_app_both.
        apply (startswith_transfer x (y0 ++ a') (a' ++ p2) s r Hrw Hov Hxp);
          [apply tails_app|assumption].
  - cbn [occurs] in Ho. apply orb_true_iff in Ho. destruct Ho as [H|H].
    + apply occurs_startswith.
      apply (startswith_transfer x y p (c :: s) (c :: r));
        [now constructor|assumption|assumption|apply tails_self|assumption].
    + cbn [occurs]. rewrite (IH H). apply orb_true_r.
Qed.

(** No occurrence of [p] is created. *)
Lemma occurs_reflect (x y p s r : str) :
  Rewrites x y s r -> transfers p y x = true ->
  occurs p s = false -> occurs p r = false.
Proof.
  intros Hrw Ht Hs. destruct (occurs p r) eqn:E; [|reflexivity].
  rewrite (occurs_transfer y x p r s (rewrites_sym _ _ _ _ Hrw) Ht E) in Hs.
  discriminate.
Qed.

(** After the replacement [old] is gone, when [new] neither holds [old]
    nor joins up with it. *)
Lemma replaced_gone (old new s r : str) :
  Replaced old new s r -> transfers old new old = true -> overlaps new old = false ->
  occurs old r = false.
Proof.
  intros Hrp Ht Hno. pose proof Ht as Ht'. unfold transfers in Ht'.
  rewrite !andb_true_iff, !negb_true_iff in Ht'.
  destruct Ht' as [[[Hov Hxp] Hpx] _].
  induction Hrp as [|s r Hrp IH|c s r Hc Hrp IH].
  - destruct old; [destruct new; discriminate Hpx|reflexivity].
  - destruct (occurs old (new ++ r)) eqn:E; [exfalso|reflexivity].
    destruct (occurs_app_cases _ _ _ E) as [H|(a' & Hin & Hne & Hs)]; [congruence|].
    destruct (startswith_app_cases _ _ _ Hs) as [H|H].
    + assert (occurs old new = true) by (apply occurs_tails; eauto). congruence.
    + rewrite (overlaps_intro new old a') in Hno; [discriminate|auto..].
  - cbn [occurs]. rewrite IH, orb_false_r.
    destruct (startswith old (c :: r)) eqn:E; [exfalso|reflexivity].
    rewrite (startswith_transfer new old old (c :: r) (c :: s)) in Hc;
      [discriminate| |assumption|assumption|apply tails_self|assumption].
    constructor. apply rewrites_sym. now apply replaced_rewrites.
Qed.

(** Where [old] occurs, [new] is written. *)
Lemma replaced_emits (h : ascii) (old' new s r : str) :
  Replaced (h :: old') new s r -> occurs (h :: old') s = true -> occurs new r = true.
Proof.
  induction 1 as [|s r Hrp IH|c s r Hc Hrp IH]; intros Ho.
  - discriminate.
  - apply occurs_startswith, startswith_app.
  - cbn [occurs] in Ho. rewrite Hc in Ho. cbn [occurs]. rewrite (IH Ho).
    apply orb_true_r.
Qed.

(** Without an occurrence of [old] nothing changes. *)
Lemma replace_absent (h : ascii) (old' new s : str) :
  occurs (h :: old') s = false -> replace (h :: old') new s = s.
Proof.
  unfold replace. induction s as [|c s IH]; [reflexivity|].
  cbn [occurs replace_from]. intros H. apply orb_false_iff in H. destruct H as [H1 H2].
  rewrite H1. f_equal. now apply IH.
Qed.

(** ** The link normalizer *)

Lemma replace_keeps (p : str) (h : ascii) (old' new s : str) :
  transfers p (h :: old') new = true ->
  occurs p s = true -> occurs p (replace (h :: old') new s) = true.
Proof.
  intros Ht. apply (occurs_transfer (h :: old') new p); [|assumption].
  apply replaced_rewrites, replace_replaced.
Qed.

Lemma replace_creates_not (p : str) (h : ascii) (old' new s : str) :
  transfers p new (h :: old') = true ->
  occurs p (replace (h :: old') new s) = true -> occurs p s = true.
Proof.
  intros Ht Ho. destruct (occurs p s) eqn:E; [reflexivity|].
  rewrite (occurs_reflect (h :: old') new p s _
             (replaced_rewrites _ _ _ _ (replace_replaced h old' new s)) Ht E) in Ho.
  discriminate.
Qed.

Lemma replace_gone (h : ascii) (old' new s : str) :
  transfers (h :: old') new (h :: old') = true -> overlaps new (h :: old') = false ->
  occurs (h :: old') (replace (h :: old') new s) = false.
Proof. intros Ht Ho. eapply replaced_gone; eauto using replace_replaced. Qed.

Lemma replace_emits (h : ascii) (old' new s : str) :
  occurs (h :: old') s = true -> occurs new (replace (h :: old') new s) = true.
Proof. apply replaced_emits, replace_replaced. Qed.

Lemma stage_keeps (p : str) (h : ascii) (old' new s : str) (c : bool) :
  transfers p (h :: old') new = true ->
  occurs p s = true ->
  occurs p (if c then replace (h :: old') new s else s) = true.
Proof. destruct c; [apply replace_keeps|auto]. Qed.

Lemma stage_creates_not (p : str) (h : ascii) (old' new s : str) (c : bool) :
  transfers p new (h :: old') = true ->
  occurs p (if c then replace (h :: old') new s else s) = true ->
  occurs p s = true.
Proof. destruct c; [apply replace_creates_not|auto]. Qed.

(** The branch that gives a bare domain its scheme: afterwards the
    domain, if it occurs, occurs with the scheme. *)
Lemma stage_domain (h : ascii) (d' new s : str) :
  (let s' := if occurs (h :: d') s && negb (occurs new s)
             then replace (h :: d') new s else s in
   occurs (h :: d') s' = true -> occurs new s' = true).
Proof.
  cbv zeta. destruct (occurs (h :: d') s) eqn:Ed; simpl.
  - destruct (occurs new s) eqn:En; simpl; [auto|].
    intros _. now apply replace_emits.
  - congruence.
Qed.

(** The collapse of a doubled scheme keeps a scheme where there was
    one. *)
Lemma collapse_keeps_scheme (s : str) :
  occurs "https://" s = true ->
  occurs "https://" (replace "https://https://" "https://" s) = true.
Proof.
  intros H. destruct (occurs "https://https://" s) eqn:E.
  - now apply replace_emits.
  - now rewrite replace_absent.
Qed.

Lemma settled_nil : settled "".
Proof. repeat split; discriminate. Qed.

Lemma enforce_absolute_urls_settled (s : str) : settled (enforce_absolute_urls s).
Proof.
  unfold enforce_absolute_urls. destruct (truthy s); simpl; [|apply settled_nil].
  set (s1 := replace "http://" "https://" s).
  assert (A1 : occurs "http://" s1 = false) by (apply replace_gone; reflexivity).
  clearbody s1. clear s.
  set (s2 := replace "https://https://" "https://" s1).
  assert (A2 : occurs "http://" s2 = false).
  { destruct (occurs "http://" s2) eqn:E; [|reflexivity].
    apply replace_creates_not in E; [congruence|reflexivity]. }
  clearbody s2. clear s1 A1.
  set (s3 := if occurs "linkedin.com" s2 && negb (occurs "https://linkedin.com" s2)
             then replace "linkedin.com" "https://linkedin.com" s2 else s2).
  assert (A3 : occurs "http://" s3 = false).
  { destruct (occurs "http://" s3) eqn:E; [|reflexivity].
    apply stage_creates_not in E; [congruence|reflexivity]. }
  assert (L3 : occurs "linkedin.com" s3 = true -> occurs "https://linkedin.com" s3 = true)
    by apply stage_domain.
  clearbody s3. clear s2 A2.
  set (s4 := if occurs "github.com" s3 && negb (occurs "https://github.com" s3)
             then replace "github.com" "https://github.com" s3 else s3).
  assert (A4 : occurs "http://" s4 = false).
  { destruct (occurs "http://" s4) eqn:E; [|reflexivity].
    apply stage_creates_not in E; [congruence|reflexivity]. }
  assert (L4 : occurs "linkedin.com" s4 = true -> occurs "https://linkedin.com" s4 = true).
  { intros H. apply stage_creates_not in H; [|reflexivity].
    apply stage_keeps; [reflexivity|auto]. }
  assert (G4 : occurs "github.com" s4 = true -> occurs "https://github.com" s4 = true)
    by apply stage_domain.
  clearbody s4. clear s3 A3 L3.
  set (s5 := if occurs "netlify.app" s4 && negb (occurs "https://" s4)
             then replace "ayaanahmad-portfolio.netlify.app"
                          "https://ayaanahmad-portfolio.netlify.app" s4
             else s4).
  assert (A5 : occurs "http://" s5 = false).
  { destruct (occurs "http://" s5) eqn:E; [|reflexivity].
    apply stage_creates_not in E; [congruence|reflexivity]. }
  assert (L5 : occurs "linkedin.com" s5 = true -> occurs "https://linkedin.com" s5 = true).
  { intros H. apply stage_creates_not in H; [|reflexivity].
    apply stage_keeps; [reflexivity|auto]. }
  assert (G5 : occurs "github.com" s5 = true -> occurs "https://github.com" s5 = true).
  { intros H. apply stage_creates_not in H; [|reflexivity].
    apply stage_keeps; [reflexivity|auto]. }
  assert (N5 : occurs "netlify.app" s5 = true -> occurs "https://" s5 = false ->
               occurs "ayaanahmad-portfolio.netlify.app" s5 = false).
  { subst s5. destruct (occurs "netlify.app" s4) eqn:En; simpl.
    - destruct (occurs "https://" s4) eqn:Eh; simpl; [congruence|].
      intros _ Hno.
      destruct (occurs "ayaanahmad-portfolio.netlify.app" s4) eqn:Ep.
      + apply (replace_emits _ _ "https://ayaanahmad-portfolio.netlify.app") in Ep.
        rewrite (occurs_trans "https://" "https://ayaanahmad-portfolio.netlify.app" _
                   eq_refl Ep) in Hno.
        discriminate.
      + now rewrite replace_absent.
    - congruence. }
  clearbody s5. clear s4 A4 L4 G4.
  set (s6 := replace "https://https://" "https://" s5).
  repeat split.
  - destruct (occurs "http://" s6) eqn:E; [|reflexivity].
    apply replace_creates_not in E; [congruence|reflexivity].
  - intros H. apply replace_creates_not in H; [|reflexivity].
    apply replace_keeps; [reflexivity|auto].
  - intros H. apply replace_creates_not in H; [|reflexivity].
    apply replace_keeps; [reflexivity|auto].
  - intros Hn Hh.
    assert (Hh5 : occurs "https://" s5 = false).
    { destruct (occurs "https://" s5) eqn:E; [|reflexivity].
      apply collapse_keeps_scheme in E. fold s6 in E. congruence. }
    assert (Hhh : occurs "https://https://" s5 = false).
    { destruct (occurs "https://https://" s5) eqn:E; [|reflexivity].
      rewrite (occurs_trans "https://" "https://https://" _ eq_refl E) in Hh5.
      discriminate. }
    unfold s6 in *. rewrite replace_absent in * by assumption. auto.
Qed.

(** On a settled line without a doubled scheme the normalizer changes
    nothing. *)
Lemma settled_fixed (t : str) :
  settled t -> occurs "https://https://" t = false -> enforce_absolute_urls t = t.
Proof.
  intros (A & L & G & N) D. unfold enforce_absolute_urls.
  destruct t as [|c t]; [reflexivity|]. cbn [truthy negb].
  set (u := c :: t) in *.
  rewrite (replace_absent _ _ _ u A). rewrite (replace_absent _ _ _ u D).
  replace (occurs "linkedin.com" u && negb (occurs "https://linkedin.com" u)) with false.
  2: { destruct (occurs "linkedin.com" u); [rewrite L|]; reflexivity. }
  replace (occurs "github.com" u && negb (occurs "https://github.com" u)) with false.
  2: { destruct (occurs "github.com" u); [rewrite G|]; reflexivity. }
  destruct (occurs "netlify.app" u && negb (occurs "https://" u)) eqn:E.
  - apply andb_true_iff in E. destruct E as [E1 E2]. apply negb_true_iff in E2.
    rewrite (replace_absent _ _ _ u (N E1 E2)). now apply replace_absent.
  - now apply replace_absent.
Qed.

Lemma replaced_length (old new s r : str) :
  Replaced old new s r -> List.length new <= List.length old ->
  List.length r <= List.length s.
Proof.
  intros Hrp Hle. induction Hrp; simpl; [lia| |lia].
  rewrite !length_app. lia.
Qed.

Lemma replaced_shrinks (h : ascii) (old' new s r : str) :
  Replaced (h :: old') new s r -> List.length new < List.length (h :: old') ->
  occurs (h :: old') s = true -> List.length r < List.length s.
Proof.
  intros Hrp Hlt. induction Hrp as [|s r Hrp IH|c s r Hc Hrp IH]; intros Ho.
  - discriminate.
  - pose proof (replaced_length _ _ _ _ Hrp (Nat.lt_le_incl _ _ Hlt)).
    rewrite !length_app. lia.
  - cbn [occurs] in Ho. rewrite Hc in Ho. specialize (IH Ho). simpl. lia.
Qed.

(** On a settled line that still has a doubled scheme the normalizer
    takes characters away. *)
Lemma settled_shrinks (t : str) :
  settled t -> occurs "https://https://" t = true ->
  List.length (enforce_absolute_urls t) < List.length t.
Proof.
  intros (A & L & G & N) D. unfold enforce_absolute_urls.
  destruct t as [|c t]; [discriminate|]. cbn [truthy negb].
  set (u := c :: t) in *.
  rewrite (replace_absent _ _ _ u A).
  set (u2 := replace "https://https://" "https://" u).
  assert (Hlen : List.length u2 < List.length u).
  { eapply replaced_shrinks; [apply replace_replaced|simpl; lia|assumption]. }
  assert (Hs : occurs "https://" u2 = true) by now apply replace_emits.
  replace (occurs "linkedin.com" u2 && negb (occurs "https://linkedin.com" u2)) with false.
  2: { destruct (occurs "linkedin.com" u2) eqn:E; [|reflexivity].
       apply replace_creates_not in E; [|reflexivity].
       unfold u2. rewrite replace_keeps; [reflexivity|reflexivity|auto]. }
  replace (occurs "github.com" u2 && negb (occurs "https://github.com" u2)) with false.
  2: { destruct (occurs "github.com" u2) eqn:E; [|reflexivity].
       apply replace_creates_not in E; [|reflexivity].
       unfold u2. rewrite replace_keeps; [reflexivity|reflexivity|auto]. }
  rewrite Hs, andb_false_r.
  eapply Nat.le_lt_trans; [|exact Hlen].
  eapply replaced_length; [apply replace_replaced|simpl; lia].
Qed.

(** The boundary of C5: applying the normalizer twice is applying it
    once exactly when one application leaves no doubled scheme. *)
Lemma enforce_absolute_urls_idempotent_iff (s : str) :
  enforce_absolute_urls (enforce_absolute_urls s) = enforce_absolute_urls s
  <-> occurs "https://https://" (enforce_absolute_urls s) = false.
Proof.
  split.
  - intros H. destruct (occurs "https://https://" (enforce_absolute_urls s)) eqn:E;
      [|reflexivity].
    pose proof (settled_shrinks _ (enforce_absolute_urls_settled s) E) as Hlt.
    rewrite H in Hlt. lia.
  - intros H. apply settled_fixed; [apply enforce_absolute_urls_settled|assumption].
Qed.

(** The part of C6 that holds on every line: no "http://" is left. *)
Lemma enforce_absolute_urls_no_http (s : str) :
  occurs "http://" (enforce_absolute_urls s) = false.
Proof. apply enforce_absolute_urls_settled. Qed.

(** C5 fails on the code: each pass over a run of scheme prefixes halves
    it once, and the function makes two passes.  Five prefixes in a row
    come back as two, and a second application brings them down to one:
    applying twice is not applying once. *)
Theorem enforce_absolute_urls_twice :
  enforce_absolute_urls "https://https://https://https://https://x" = "https://https://x"
  /\ enforce_absolute_urls (enforce_absolute_urls "https://https://https://https://https://x")
     = "https://x"
  /\ enforce_absolute_urls (enforce_absolute_urls "https://https://https://https://https://x")
     <> enforce_absolute_urls "https://https://https://https://https://x".
Proof.
  split; [vm_compute; reflexivity|]. split; [vm_compute; reflexivity|].
  vm_compute. discriminate.
Qed.

(** C6: the scenario of the specification holds, and the code misses the
    claim on a link that already has its scheme: the test looks for the
    literal "https://linkedin.com", so an address written with "www."
    gets a second scheme in its middle; the test for the portfolio host
    looks for "https://" anywhere in the line, so the host stays bare
    next to any other link. *)
Theorem enforce_absolute_urls_schemes :
  enforce_absolute_urls "linkedin.com/in/x, http://github.com/y"
    = "https://linkedin.com/in/x, https://github.com/y"
  /\ enforce_absolute_urls "https://www.linkedin.com/in/x"
     = "https://www.https://linkedin.com/in/x"
  /\ enforce_absolute_urls "https://github.com/y | ayaanahmad-portfolio.netlify.app"
     = "https://github.com/y | ayaanahmad-portfolio.netlify.app"
  /\ enforce_absolute_urls "ayaanahmad-portfolio.netlify.app"
     = "https://ayaanahmad-portfolio.netlify.app".
Proof. repeat split; vm_compute; reflexivity. Qed.

(** * Further properties of the code *)

(** ** The gateway *)

Lemma attempts_retried (service : nat -> answer) (remaining attempt : nat) :
  retried (service attempt) = true ->
  attempts service (S remaining) attempt =
    (Post attempt :: Sleep (delay attempt) :: fst (attempts service remaining (S attempt)),
     snd (attempts service remaining (S attempt))).
Proof.
  intros H. cbn [attempts]. unfold retried in H.
  destruct (service attempt) as [code text json|].
  - apply andb_true_iff in H. destruct H as [H1 H2].
    apply negb_true_iff in H1, H2. rewrite H1, H2.
    now destruct (attempts service remaining (S attempt)).
  - now destruct (attempts service remaining (S attempt)).
Qed.

Lemma attempts_settle (service : nat -> answer) (k remaining attempt : nat)
    (last : list event * res (gmap string pyval)) :
  k < remaining ->
  (forall j, j < k -> retried (service (attempt + j)) = true) ->
  (forall remaining', attempts service (S remaining') (attempt + k) = last) ->
  attempts service remaining attempt = (retry_run attempt k ++ fst last, snd last).
Proof.
  revert remaining attempt. induction k as [|k IH]; intros remaining attempt Hk Hr Hl.
  - destruct remaining as [|remaining]; [lia|].
    rewrite Nat.add_0_r in Hl. rewrite Hl. now destruct last.
  - destruct remaining as [|remaining]; [lia|].
    rewrite attempts_retried by (rewrite <- (Nat.add_0_r attempt); apply Hr; lia).
    rewrite (IH remaining (S attempt)).
    + reflexivity.
    + lia.
    + intros j Hj. replace (S attempt + j) with (attempt + S j) by lia. apply Hr. lia.
    + intros r. replace (S attempt + k) with (attempt + S k) by lia. apply Hl.
Qed.

(** X1: the gateway returns the body of the first 2xx answer, provided it
    comes within the five attempts and every answer before it was a
    transport error or a status outside 2xx and 4xx: it has then POSTed
    once per answer and slept after each failed one, and nothing more. *)
Theorem call_gemini_api_first_success (service : nat -> answer) (k : nat)
    (status_code : Z) (text : str) (result : gmap string pyval) :
  k < 5 ->
  (forall j, j < k -> retried (service j) = true) ->
  service k = Response status_code text (Some result) ->
  is_success status_code = true ->
  call_gemini_api service = (retry_run 0 k ++ [Post k], Ok result).
Proof.
  intros Hk Hr Hs Hc. unfold call_gemini_api, max_retries.
  apply (attempts_settle service k 5 0 ([Post k], Ok result)); [assumption|exact Hr|].
  intros r. cbn [attempts Nat.add]. now rewrite Hs, Hc.
Qed.

Lemma call_gemini_api_first_success_witness :
  call_gemini_api
    (fun n => match n with
              | 0 => Response 503 "busy" None
              | 1 => RequestError
              | _ => Response 200 "{}" (Some ∅)
              end)
  = ([Post 0; Sleep 1000; Post 1; Sleep 2100; Post 2], Ok ∅).
Proof.
  apply (call_gemini_api_first_success _ 2 200 "{}" ∅); [lia| |reflexivity|reflexivity].
  intros [|[|j]] Hj; [reflexivity|reflexivity|lia].
Defined.

(** X2: a 4xx answer is final: the gateway returns the client-error value
    built from the status and the body text, without sleeping and
    without another POST, whatever the service would have answered
    next. *)
Theorem call_gemini_api_client_error_final (service : nat -> answer) (k : nat)
    (status_code : Z) (text : str) (json : option (gmap string pyval)) :
  k < 5 ->
  (forall j, j < k -> retried (service j) = true) ->
  service k = Response status_code text json ->
  (400 <= status_code < 500)%Z ->
  call_gemini_api service
    = (retry_run 0 k ++ [Post k], Ok (client_error status_code text))
  /\ is_Some (client_error status_code text !! "error"%string).
Proof.
  intros Hk Hr Hs Hc. split.
  - unfold call_gemini_api, max_retries.
    apply (attempts_settle service k 5 0 ([Post k], Ok (client_error status_code text)));
      [assumption|exact Hr|].
    intros r. cbn [attempts Nat.add]. rewrite Hs. unfold is_success.
    replace (status_code <=? 299)%Z with false by (symmetry; apply Z.leb_gt; lia).
    rewrite andb_false_r.
    replace (400 <=? status_code)%Z with true by (symmetry; apply Z.leb_le; lia).
    replace (status_code <? 500)%Z with true by (symmetry; apply Z.ltb_lt; lia).
    reflexivity.
  - unfold client_error. rewrite lookup_insert_eq. eauto.
Qed.

Lemma call_gemini_api_client_error_final_witness :
  call_gemini_api
    (fun n => match n with
              | 0 => RequestError
              | _ => Response 429 "quota" None
              end)
  = ([Post 0; Sleep 1000; Post 1], Ok (client_error 429 "quota")).
Proof.
  apply (call_gemini_api_client_error_final _ 1 429 "quota" None);
    [lia| |reflexivity|lia].
  intros [|j] Hj; [reflexivity|lia].
Defined.

(** X3: a 2xx answer whose body is not JSON makes [response.json()] raise;
    neither [except] clause of the gateway takes that exception, so the
    gateway itself raises. *)
Theorem call_gemini_api_body_not_json (service : nat -> answer) (k : nat)
    (status_code : Z) (text : str) :
  k < 5 ->
  (forall j, j < k -> retried (service j) = true) ->
  service k = Response status_code text None ->
  is_success status_code = true ->
  call_gemini_api service = (retry_run 0 k ++ [Post k], Raise JSONDecodeError).
Proof.
  intros Hk Hr Hs Hc. unfold call_gemini_api, max_retries.
  apply (attempts_settle service k 5 0 ([Post k], Raise JSONDecodeError));
    [assumption|exact Hr|].
  intros r. cbn [attempts Nat.add]. now rewrite Hs, Hc.
Qed.

Lemma call_gemini_api_body_not_json_witness :
  call_gemini_api (fun _ => Response 200 "<html>" None)
  = ([Post 0], Raise JSONDecodeError).
Proof.
  apply (call_gemini_api_body_not_json _ 0 200 "<html>"); [lia| |reflexivity|reflexivity].
  intros j Hj. lia.
Defined.

(** X4: transport errors are retried like server errors: when each of the
    five answers is a transport error or a status outside 2xx and 4xx,
    the gateway POSTs five times, sleeps after each POST, the last one
    included, and returns the generic failure value, which carries the
    ["error"] key the callers test for. *)
Theorem call_gemini_api_exhausted (service : nat -> answer) :
  (forall j, j < 5 -> retried (service j) = true) ->
  call_gemini_api service = (retry_run 0 5, Ok retries_exhausted)
  /\ is_Some (retries_exhausted !! "error"%string).
Proof.
  intros Hr. split.
  - unfold call_gemini_api, max_retries.
    rewrite !attempts_retried by (apply Hr; lia). reflexivity.
  - unfold retries_exhausted. rewrite lookup_singleton_eq. eauto.
Qed.

Lemma call_gemini_api_exhausted_witness :
  call_gemini_api (fun _ => RequestError) = (retry_run 0 5, Ok retries_exhausted).
Proof.
  apply (call_gemini_api_exhausted (fun _ => RequestError)). reflexivity.
Defined.

Lemma attempts_bounded (service : nat -> answer) (remaining attempt : nat) :
  exists n m,
    posts (fst (attempts service remaining attempt)) = seq attempt n
    /\ sleeps (fst (attempts service remaining attempt)) = map delay (seq attempt m)
    /\ m <= n <= remaining /\ (0 < remaining -> 0 < n).
Proof.
  revert attempt. induction remaining as [|remaining IH]; intros attempt.
  - exists 0, 0. simpl. repeat split; lia.
  - destruct (IH (S attempt)) as (n & m & Hp & Hs & Hle & _).
    assert (Hretry : exists n m,
      posts (Post attempt :: Sleep (delay attempt)
               :: fst (attempts service remaining (S attempt))) = seq attempt n
      /\ sleeps (Post attempt :: Sleep (delay attempt)
                   :: fst (attempts service remaining (S attempt)))
         = map delay (seq attempt m)
      /\ m <= n <= S remaining /\ (0 < S remaining -> 0 < n)).
    { exists (S n), (S m). cbn [posts sleeps flat_map app].
      fold (posts (fst (attempts service remaining (S attempt)))).
      fold (sleeps (fst (attempts service remaining (S attempt)))).
      rewrite Hp, Hs. repeat split; try lia. }
    assert (Hstop : exists n m,
      posts [Post attempt] = seq attempt n
      /\ sleeps [Post attempt] = map delay (seq attempt m)
      /\ m <= n <= S remaining /\ (0 < S remaining -> 0 < n)).
    { exists 1, 0. simpl. repeat split; lia. }
    cbn [attempts].
    destruct (service attempt) as [code text json|].
    + destruct (is_success code); [exact Hstop|].
      destruct ((400 <=? code)%Z && (code <? 500)%Z); [exact Hstop|].
      destruct (attempts service remaining (S attempt)). exact Hretry.
    + destruct (attempts service remaining (S attempt)). exact Hretry.
Qed.

(** X5: whatever the service answers, the gateway POSTs at least once and at
    most five times, numbering its attempts from 0; it sleeps at most
    once per POST, the k-th sleep lasting [delay k], so that it never
    sleeps more than 32 seconds in all. *)
Theorem call_gemini_api_bounded (service : nat -> answer) :
  exists n m,
    posts (fst (call_gemini_api service)) = seq 0 n
    /\ sleeps (fst (call_gemini_api service)) = map delay (seq 0 m)
    /\ 1 <= n <= 5 /\ m <= n
    /\ (fold_right Z.add 0 (sleeps (fst (call_gemini_api service))) <= 32000)%Z.
Proof.
  unfold call_gemini_api, max_retries.
  destruct (attempts_bounded service 5 0) as (n & m & Hp & Hs & Hle & Hpos).
  exists n, m. rewrite Hp, Hs. repeat split; try lia.
  assert (Hm : m <= 5) by lia. clear -Hm.
  do 6 (destruct m as [|m]; [vm_compute; discriminate|]). lia.
Qed.

(** ** [filter_cliches] *)

Lemma truthy_lower (s : str) : truthy (lower s) = truthy s.
Proof. now destruct s. Qed.

Lemma key_clean (x : str) : strip x = x -> key x = lower x.
Proof. intros H. unfold key. now rewrite strip_lower, H. Qed.

Lemma map_strip_clean (l : list str) : Forall clean l -> map strip l = l.
Proof.
  induction 1 as [|x l (_ & Hx & _) _ IH]; [reflexivity|]. simpl. now rewrite Hx, IH.
Qed.

(** The kept skills, as a list. *)
Lemma filter_cliches_join (s : str) :
  filter_cliches s
  = join ", " (List.filter (fun x => negb (bool_decide (key x ∈ cliche_set))) (skills_of s)).
Proof.
  unfold filter_cliches. destruct s as [|c s]; [reflexivity|].
  cbn [truthy negb]. f_equal. unfold skills_of.
  generalize (split ","%char (c :: s)). intros l.
  induction l as [|t l IH]; [reflexivity|]. cbn [map List.filter].
  assert (Ht : truthy (key (strip t)) = truthy (strip t)).
  { rewrite key_strip. unfold key. now rewrite strip_lower, truthy_lower. }
  rewrite Ht. destruct (truthy (strip t)); cbn [andb List.filter]; [|exact IH].
  destruct (negb (bool_decide (key (strip t) ∈ cliche_set))); [|exact IH].
  cbn [map]. now rewrite strip_idem, IH.
Qed.

Lemma skills_of_filter_cliches (s : str) :
  skills_of (filter_cliches s)
  = List.filter (fun x => negb (bool_decide (key x ∈ cliche_set))) (skills_of s).
Proof.
  rewrite filter_cliches_join. apply skills_of_join, clean_filter, skills_of_clean.
Qed.

Lemma cliche_set_In (x : str) : x ∈ cliche_set <-> In x PROHIBITED_CLICHES.
Proof.
  unfold cliche_set. rewrite elem_of_list_to_set, list_elem_of_In.
  replace (map key PROHIBITED_CLICHES) with PROHIBITED_CLICHES by (vm_compute; reflexivity).
  reflexivity.
Qed.

(** X6: the skills read back from the filtered string are the skills of the
    input, in their order and spelling, without the ones whose
    lower-cased form is a prohibited cliché; as a case-insensitive set,
    the result holds exactly the input's skills that are not in
    [PROHIBITED_CLICHES]. *)
Theorem filter_cliches_removes_exactly (skills_string : str) :
  skills_of (filter_cliches skills_string)
  = List.filter (fun x => negb (bool_decide (In (lower x) PROHIBITED_CLICHES)))
      (skills_of skills_string)
  /\ forall x, In x (skill_set (filter_cliches skills_string))
       <-> In x (skill_set skills_string) /\ ~ In x PROHIBITED_CLICHES.
Proof.
  assert (E : forall x, In x (skills_of skills_string) ->
            negb (bool_decide (key x ∈ cliche_set))
            = negb (bool_decide (In (lower x) PROHIBITED_CLICHES))).
  { intros x Hx. pose proof (skills_of_clean skills_string) as Hc.
    rewrite List.Forall_forall in Hc. destruct (Hc x Hx) as (_ & Hs & _).
    rewrite (key_clean x Hs). f_equal. apply bool_decide_ext, cliche_set_In. }
  split.
  - rewrite skills_of_filter_cliches. now apply filter_ext_in.
  - intros x. unfold skill_set. rewrite skills_of_filter_cliches, !in_map_iff. split.
    + intros (u & <- & Hu). apply filter_In in Hu. destruct Hu as [Hin Hn].
      rewrite (E u Hin) in Hn. apply negb_true_iff, bool_decide_eq_false in Hn. eauto.
    + intros [(u & <- & Hin) Hn]. exists u. split; [reflexivity|].
      apply filter_In. split; [assumption|]. rewrite (E u Hin).
      now apply negb_true_iff, bool_decide_eq_false.
Qed.

(** X7: filtering a filtered string changes nothing. *)
Theorem filter_cliches_idempotent (skills_string : str) :
  filter_cliches (filter_cliches skills_string) = filter_cliches skills_string.
Proof.
  rewrite (filter_cliches_join (filter_cliches skills_string)), skills_of_filter_cliches.
  rewrite (filter_cliches_join skills_string). f_equal.
  induction (skills_of skills_string) as [|x l IH]; [reflexivity|]. cbn [List.filter].
  destruct (negb (bool_decide (key x ∈ cliche_set))) eqn:E; [|exact IH].
  cbn [List.filter]. now rewrite E, IH.
Qed.

(** ** The keyword string of call 3 *)

Lemma unique_from_spec (seen : gset str) (l : list str) :
  List.NoDup (unique_from seen l)
  /\ (forall x, In x (unique_from seen l) <-> In x l /\ x ∉ seen)
  /\ sublist (unique_from seen l) l.
Proof.
  revert seen. induction l as [|y l IH]; intros seen.
  - split; [constructor|]. split; [simpl; tauto|constructor].
  - cbn [unique_from]. case_bool_decide as Hy.
    + destruct (IH seen) as (Hn & Hin & Hsub). split; [assumption|]. split.
      * intros x. rewrite Hin. simpl. split; [tauto|].
        intros [[-> | H] Hx]; [contradiction|tauto].
      * now apply sublist_cons.
    + destruct (IH ({[ y ]} ∪ seen)) as (Hn & Hin & Hsub). split; [|split].
      * constructor; [|assumption]. rewrite Hin. intros [_ H]. apply H.
        apply elem_of_union. left. now apply elem_of_singleton.
      * intros x. simpl. rewrite Hin, elem_of_union, elem_of_singleton. split.
        -- intros [<- | [H1 H2]]; tauto.
        -- intros [[<- | H1] H2]; [tauto|].
           destruct (decide (x = y)) as [->|Hne]; tauto.
      * now apply sublist_skip.
Qed.

Lemma unique_from_fresh (seen : gset str) (l : list str) :
  List.NoDup l -> (forall x, In x l -> x ∉ seen) -> unique_from seen l = l.
Proof.
  intros Hn. revert seen. induction Hn as [|y l Hy Hn IH]; intros seen Hs; [reflexivity|].
  cbn [unique_from]. rewrite bool_decide_eq_false_2 by (apply Hs; now left).
  f_equal. apply IH. intros x Hx. rewrite elem_of_union, elem_of_singleton.
  intros [-> | H]; [contradiction|]. apply (Hs x); [now right|assumption].
Qed.

Lemma unique_from_snoc (seen : gset str) (a : list str) (x : str) :
  unique_from seen (a ++ [x])
  = unique_from seen a
      ++ (if bool_decide (x ∈ seen) || bool_decide (x ∈ a) then [] else [x]).
Proof.
  revert seen. induction a as [|y a IH]; intros seen.
  - cbn [app unique_from]. rewrite (bool_decide_eq_false_2 (x ∈ [])) by apply not_elem_of_nil.
    rewrite orb_false_r. now destruct (bool_decide (x ∈ seen)).
  - cbn [app unique_from]. destruct (bool_decide (y ∈ seen)) eqn:Ey; rewrite IH.
    + f_equal. destruct (decide (x = y)) as [->|Hne].
      * rewrite Ey. reflexivity.
      * rewrite (bool_decide_ext (x ∈ y :: a) (x ∈ a)); [reflexivity|].
        rewrite elem_of_cons. tauto.
    + cbn [app]. do 2 f_equal. destruct (decide (x = y)) as [->|Hne].
      * rewrite (bool_decide_eq_true_2 (y ∈ ({[y]} ∪ seen : gset str)))
          by (apply elem_of_union; left; now apply elem_of_singleton).
        rewrite (bool_decide_eq_true_2 (y ∈ y :: a)) by (apply elem_of_cons; now left).
        now rewrite orb_true_r.
      * rewrite (bool_decide_ext (x ∈ ({[y]} ∪ seen : gset str)) (x ∈ seen)).
        2: { rewrite elem_of_union, elem_of_singleton. tauto. }
        rewrite (bool_decide_ext (x ∈ y :: a) (x ∈ a)); [reflexivity|].
        rewrite elem_of_cons. tauto.
Qed.

(** X8: the keyword list handed to call 3 is built by reading the tiers
    from left to right and appending a keyword exactly when it has not
    occurred before: the first occurrence of each keyword stays where
    it is and every later repetition is left out.  Hence the list has
    no duplicates, holds exactly the keywords of the four tiers, is the
    input with entries left out, and doing it again changes nothing. *)
Theorem jd_all_skills_list_unique_spec (jd_all_skills_list : list str) :
  List.NoDup (jd_all_skills_list_unique jd_all_skills_list)
  /\ (forall x, In x (jd_all_skills_list_unique jd_all_skills_list)
                <-> In x jd_all_skills_list)
  /\ sublist (jd_all_skills_list_unique jd_all_skills_list) jd_all_skills_list
  /\ jd_all_skills_list_unique (jd_all_skills_list_unique jd_all_skills_list)
     = jd_all_skills_list_unique jd_all_skills_list
  /\ jd_all_skills_list_unique [] = []
  /\ (forall x : str,
        jd_all_skills_list_unique (jd_all_skills_list ++ [x])
        = if bool_decide (x ∈ jd_all_skills_list)
          then jd_all_skills_list_unique jd_all_skills_list
          else jd_all_skills_list_unique jd_all_skills_list ++ [x]).
Proof.
  unfold jd_all_skills_list_unique.
  destruct (unique_from_spec ∅ jd_all_skills_list) as (Hn & Hin & Hsub).
  split; [assumption|]. split; [|split; [assumption|split; [|split; [reflexivity|]]]].
  - intros x. rewrite Hin. split; [tauto|]. intros H. split; [assumption|].
    apply not_elem_of_empty.
  - apply unique_from_fresh; [assumption|]. intros x _. apply not_elem_of_empty.
  - intros x. rewrite unique_from_snoc.
    rewrite (bool_decide_eq_false_2 (x ∈ (∅ : gset str))) by apply not_elem_of_empty.
    cbn [orb]. destruct (bool_decide (x ∈ jd_all_skills_list)); [apply app_nil_r|reflexivity].
Qed.

(** The order is that of the first occurrences, not of the last. *)
Example jd_all_skills_list_unique_keeps_first :
  jd_all_skills_list_unique ["SQL"; "Excel"; "SQL"; "Python"; "Excel"]
  = ["SQL"; "Excel"; "Python"].
Proof. vm_compute. reflexivity. Qed.
(** ** [find_urls_in_text] *)

Lemma find_urls_from_skipn (k : nat) (s : str) :
  find_urls_from k s = find_urls_from 0 (skipn k s).
Proof.
  revert k. induction s as [|c s IH]; intros [|k]; try reflexivity.
  cbn [find_urls_from skipn]. apply IH.
Qed.

Lemma url_scheme_spec (s : str) (scheme : str) :
  url_scheme s = Some scheme ->
  In scheme ["https://"; "http://"; "www."] /\ s = scheme ++ skipn (List.length scheme) s.
Proof.
  unfold url_scheme.
  destruct (startswith "https://" s) eqn:E1;
    [intros [= <-]; split; [simpl; tauto|now apply startswith_eq]|].
  destruct (startswith "http://" s) eqn:E2;
    [intros [= <-]; split; [simpl; tauto|now apply startswith_eq]|].
  destruct (startswith "www." s) eqn:E3;
    [intros [= <-]; split; [simpl; tauto|now apply startswith_eq]|].
  discriminate.
Qed.

Lemma take_while_spec (P : ascii -> bool) (s : str) :
  exists b, s = take_while P s ++ b
    /\ forallb P (take_while P s) = true
    /\ match b with [] => True | c :: _ => P c = false end.
Proof.
  induction s as [|c s (b & IH1 & IH2 & IH3)]; [exists []; repeat split|].
  cbn [take_while]. destruct (P c) eqn:E.
  - exists b. cbn [forallb app]. rewrite E, IH2, <- IH1. repeat split. exact IH3.
  - exists (c :: s). repeat split. exact E.
Qed.

(** The scan, one position at a time: where the pattern matches, the
    match and then the scan of the text behind it. *)
Lemma find_urls_from_cons (c : ascii) (s : str) :
  (find_urls_from 0 (c :: s) = find_urls_from 0 s
   /\ forall scheme, url_scheme (c :: s) = Some scheme ->
        take_while url_char (skipn (List.length scheme) (c :: s)) = [])
  \/ exists scheme x run b,
       url_scheme (c :: s) = Some scheme
       /\ c :: s = scheme ++ (x :: run) ++ b
       /\ forallb url_char (x :: run) = true
       /\ match b with [] => True | y :: _ => url_char y = false end
       /\ find_urls_from 0 (c :: s) = (scheme ++ x :: run) :: find_urls_from 0 b.
Proof.
  cbn [find_urls_from]. destruct (url_scheme (c :: s)) as [scheme|] eqn:Es.
  2: { left. split; [reflexivity|discriminate]. }
  destruct (url_scheme_spec _ _ Es) as [Hin Hs].
  destruct (take_while_spec url_char (skipn (List.length scheme) (c :: s)))
    as (b & Hb & Hall & Hstop).
  destruct (take_while url_char (skipn (List.length scheme) (c :: s))) as [|x run] eqn:Et.
  { left. split; [reflexivity|]. now intros ? [= <-]. }
  right. exists scheme, x, run, b. split; [reflexivity|].
  assert (E : c :: s = scheme ++ (x :: run) ++ b) by (rewrite <- Hb; exact Hs).
  repeat split; try assumption.
  f_equal. rewrite find_urls_from_skipn. f_equal.
  destruct scheme as [|c0 scheme]; [simpl in Hin; intuition discriminate|].
  injection E as _ ->.
  replace (List.length (c0 :: scheme) + List.length run)
    with (List.length (scheme ++ x :: run)) by (rewrite length_app; simpl; lia).
  change (scheme ++ x :: run ++ b) with (scheme ++ (x :: run) ++ b).
  rewrite app_assoc.
  apply drop_app_length.
Qed.

Lemma find_urls_from_sound (n : nat) (s u : str) :
  List.length s <= n -> In u (find_urls_from 0 s) ->
  exists a scheme run b,
    s = a ++ u ++ b /\ u = scheme ++ run
    /\ In scheme ["https://"; "http://"; "www."]
    /\ run <> [] /\ forallb url_char run = true
    /\ match b with [] => True | y :: _ => url_char y = false end.
Proof.
  revert s. induction n as [|n IH]; intros [|c s] Hlen Hin; try (simpl in *; tauto || lia).
  simpl in Hlen.
  destruct (find_urls_from_cons c s) as [[E _]|(scheme & x & run & b & Es & E & Hall & Hb & Eu)].
  - rewrite E in Hin. destruct (IH s ltac:(lia) Hin) as (a & sc & r & b & -> & H).
    exists (c :: a), sc, r, b. split; [reflexivity|exact H].
  - rewrite Eu in Hin. destruct Hin as [<- | Hin].
    + exists [], scheme, (x :: run), b. split; [now rewrite <- app_assoc|].
      split; [reflexivity|]. split; [apply (url_scheme_spec _ _ Es)|].
      split; [discriminate|]. split; assumption.
    + assert (Hl : List.length b <= n).
      { apply (f_equal (@List.length ascii)) in E. rewrite !length_app in E.
        destruct (url_scheme_spec _ _ Es) as [Hs _].
        simpl in E, Hs. destruct Hs as [<- | [<- | [<- | []]]]; simpl in E; lia. }
      destruct (IH b Hl Hin) as (a & sc & r & b' & -> & H).
      exists (scheme ++ (x :: run) ++ a), sc, r, b'. split; [|exact H].
      rewrite E. now rewrite <- !app_assoc.
Qed.

(** X9: every string that [find_urls_in_text] returns is one of the three
    schemes followed by a non-empty run of characters of the class; it
    stands in the text, and the run is the longest there is: the text
    ends behind it or goes on with a character outside the class. *)
Theorem find_urls_in_text_sound (text url : str) :
  In url (find_urls_in_text text) ->
  exists before scheme run behind,
    text = before ++ url ++ behind /\ url = scheme ++ run
    /\ In scheme ["https://"; "http://"; "www."]
    /\ run <> [] /\ forallb url_char run = true
    /\ match behind with [] => True | c :: _ => url_char c = false end.
Proof. apply (find_urls_from_sound (List.length text)). lia. Qed.

Lemma find_urls_in_text_sound_witness :
  exists before scheme run behind,
    "see www.x.y, ok" = before ++ "www.x.y," ++ behind /\ "www.x.y," = scheme ++ run
    /\ In scheme ["https://"; "http://"; "www."]
    /\ run <> [] /\ forallb url_char run = true
    /\ match behind with [] => True | c :: _ => url_char c = false end.
Proof. apply (find_urls_in_text_sound "see www.x.y, ok" "www.x.y,"). simpl. tauto. Defined.

Lemma find_urls_from_weave (n : nat) (s : str) :
  List.length s <= n ->
  exists gaps rest,
    List.length gaps = List.length (find_urls_from 0 s)
    /\ s = concat (zip_with app gaps (find_urls_from 0 s)) ++ rest.
Proof.
  revert s. induction n as [|n IH]; intros [|c s] Hlen;
    try (exists [], []; split; reflexivity); try (simpl in Hlen; lia).
  simpl in Hlen.
  destruct (find_urls_from_cons c s) as [[E _]|(scheme & x & run & b & Es & E & Hall & Hb & Eu)].
  - rewrite E. destruct (IH s ltac:(lia)) as (gaps & rest & Hg & Hs).
    destruct (find_urls_from 0 s) as [|u urls].
    + exists [], (c :: s). split; reflexivity.
    + destruct gaps as [|g gaps]; [discriminate|].
      exists ((c :: g) :: gaps), rest. split; [exact Hg|].
      cbn [zip_with concat app] in *. now rewrite Hs at 1.
  - rewrite Eu.
    assert (Hl : List.length b <= n).
    { apply (f_equal (@List.length ascii)) in E. rewrite !length_app in E.
      destruct (url_scheme_spec _ _ Es) as [Hs _].
      simpl in E, Hs. destruct Hs as [<- | [<- | [<- | []]]]; simpl in E; lia. }
    destruct (IH b Hl) as (gaps & rest & Hg & Hs).
    exists ([] :: gaps), rest. split; [simpl; now rewrite Hg|].
    cbn [zip_with concat]. rewrite E, Hs at 1. cbn [app]. now rewrite <- !app_assoc.
Qed.

(** X10: the strings returned stand in the text one behind the other, in the
    order of the list, without overlapping: the text is the first
    string behind some gap, then the second behind a second gap, and so
    on, and a rest. *)
Theorem find_urls_in_text_apart (text : str) :
  exists gaps rest,
    List.length gaps = List.length (find_urls_in_text text)
    /\ text = concat (zip_with app gaps (find_urls_in_text text)) ++ rest.
Proof. apply (find_urls_from_weave (List.length text)). lia. Qed.

Lemma scheme_length (scheme : str) :
  In scheme ["https://"; "http://"; "www."] -> 0 < List.length scheme.
Proof. simpl. intros [<- | [<- | [<- | []]]]; simpl; lia. Qed.

Lemma url_scheme_here (scheme behind : str) (c : ascii) :
  In scheme ["https://"; "http://"; "www."] ->
  url_scheme (scheme ++ c :: behind) = Some scheme.
Proof. simpl. intros [<- | [<- | [<- | []]]]; reflexivity. Qed.

Lemma find_urls_from_covers (n : nat) (s before scheme behind : str) (c : ascii) :
  List.length s <= n ->
  s = before ++ scheme ++ c :: behind ->
  In scheme ["https://"; "http://"; "www."] -> url_char c = true ->
  exists urls url pre post gaps gap,
    find_urls_from 0 s = urls ++ url :: find_urls_from 0 post
    /\ s = pre ++ url ++ post
    /\ List.length pre <= List.length before < List.length pre + List.length url
    /\ List.length gaps = List.length urls
    /\ pre = concat (zip_with app gaps urls) ++ gap.
Proof.
  revert s before. induction n as [|n IH]; intros s before Hlen Es Hs Hc.
  { pose proof (scheme_length _ Hs) as Hl. apply (f_equal (@List.length ascii)) in Es.
    rewrite !length_app in Es. lia. }
  destruct s as [|x s].
  { pose proof (scheme_length _ Hs) as Hl. apply (f_equal (@List.length ascii)) in Es.
    rewrite !length_app in Es. simpl in Es. lia. }
  simpl in Hlen.
  destruct (find_urls_from_cons x s)
    as [[E Hno]|(sch & x0 & run & b & Esch & E & Hall & Hb & Eu)].
  - destruct before as [|y before].
    + exfalso. cbn [app] in Es. rewrite Es in Hno.
      specialize (Hno scheme (url_scheme_here scheme behind c Hs)).
      rewrite drop_app_length in Hno. simpl in Hno. rewrite Hc in Hno. discriminate.
    + cbn [app] in Es. injection Es as -> Es.
      destruct (IH s before ltac:(lia) Es Hs Hc)
        as (urls & url & pre & post & gaps & gap & Hf & Hd & Hp & Hg & Hpre).
      destruct urls as [|u0 urls].
      * destruct gaps; [|discriminate]. exists [], url, (y :: pre), post, [], (y :: gap).
        rewrite E. split; [exact Hf|]. split; [now rewrite Hd|].
        split; [simpl; lia|]. split; [reflexivity|]. now rewrite Hpre.
      * destruct gaps as [|g gaps]; [discriminate|].
        exists (u0 :: urls), url, (y :: pre), post, ((y :: g) :: gaps), gap.
        rewrite E. split; [exact Hf|]. split; [now rewrite Hd|].
        split; [simpl; lia|]. split; [exact Hg|]. now rewrite Hpre.
  - set (u := sch ++ x0 :: run).
    assert (Eu' : x :: s = u ++ b) by (unfold u; rewrite E; now rewrite <- app_assoc).
    destruct (le_lt_dec (List.length u) (List.length before)) as [Hge|Hlt].
    + rewrite Es in Eu'. apply app_eq_app in Eu'.
      destruct Eu' as (l & [[Hbef Hb'] | [Hu Hb']]).
      * assert (Hl : List.length b <= n).
        { apply (f_equal (@List.length ascii)) in E. rewrite !length_app in E.
          pose proof (scheme_length sch (proj1 (url_scheme_spec _ _ Esch))).
          simpl in E. lia. }
        destruct (IH b l Hl Hb' Hs Hc)
          as (urls & url & pre & post & gaps & gap & Hf & Hd & Hp & Hg & Hpre).
        exists (u :: urls), url, (u ++ pre), post, ([] :: gaps), gap. rewrite Eu. fold u.
        split; [now rewrite Hf|]. split; [|split; [|split]].
        -- rewrite Es, Hbef, <- !app_assoc. apply (f_equal (app u)).
           rewrite <- Hb'. exact Hd.
        -- rewrite Hbef, !length_app. lia.
        -- simpl. now rewrite Hg.
        -- cbn [zip_with concat app]. now rewrite Hpre, <- app_assoc.
      * assert (l = []) as ->.
        { apply (f_equal (@List.length ascii)) in Hu. rewrite length_app in Hu.
          destruct l; [reflexivity|simpl in Hu; lia]. }
        rewrite app_nil_r in Hu. cbn [app] in Hb'.
        assert (Hl : List.length b <= n).
        { apply (f_equal (@List.length ascii)) in E. rewrite !length_app in E.
          pose proof (scheme_length sch (proj1 (url_scheme_spec _ _ Esch))).
          simpl in E. lia. }
        destruct (IH b [] Hl (eq_sym Hb') Hs Hc)
          as (urls & url & pre & post & gaps & gap & Hf & Hd & Hp & Hg & Hpre).
        simpl in Hp. destruct pre; [|simpl in Hp; lia].
        exists (u :: urls), url, u, post, ([] :: gaps), gap. rewrite Eu. fold u.
        split; [now rewrite Hf|]. split; [|split; [|split]].
        -- rewrite Es, <- Hu. apply (f_equal (app u)). rewrite Hb'. exact Hd.
        -- rewrite Hu. simpl in *. lia.
        -- simpl. now rewrite Hg.
        -- cbn [zip_with concat app]. rewrite <- app_assoc, <- Hpre. now rewrite app_nil_r.
    + exists [], u, [], b, [], []. rewrite Eu. fold u. split; [reflexivity|].
      split; [exact Eu'|]. split; [simpl; lia|]. split; reflexivity.
Qed.

(** X11: no link is overlooked.  Wherever in the text one of the three
    schemes stands before a character of the class, that place lies
    inside one of the strings returned: the list is the strings found
    before it, each behind its gap, then a string that covers the place
    where the scheme begins, then the strings found in the text behind
    that string. *)
Theorem find_urls_in_text_complete (before scheme behind : str) (c : ascii) :
  In scheme ["https://"; "http://"; "www."] -> url_char c = true ->
  exists urls url pre post gaps gap,
    find_urls_in_text (before ++ scheme ++ c :: behind)
      = urls ++ url :: find_urls_in_text post
    /\ before ++ scheme ++ c :: behind = pre ++ url ++ post
    /\ List.length pre <= List.length before < List.length pre + List.length url
    /\ List.length gaps = List.length urls
    /\ pre = concat (zip_with app gaps urls) ++ gap.
Proof.
  intros Hs Hc. unfold find_urls_in_text.
  apply (find_urls_from_covers (List.length (before ++ scheme ++ c :: behind))
           _ before scheme behind c); auto.
Qed.

Lemma find_urls_in_text_complete_witness :
  exists urls url pre post gaps gap,
    find_urls_in_text ("www.a, see " ++ "http://" ++ "b"%char :: ".c/d e")
      = urls ++ url :: find_urls_in_text post
    /\ "www.a, see " ++ "http://" ++ "b"%char :: ".c/d e" = pre ++ url ++ post
    /\ List.length pre <= List.length "www.a, see " < List.length pre + List.length url
    /\ List.length gaps = List.length urls
    /\ pre = concat (zip_with app gaps urls) ++ gap.
Proof.
  apply (find_urls_in_text_complete "www.a, see " "http://" ".c/d e" "b"%char);
    [simpl; tauto|reflexivity].
Defined.
(** ** [parse_resume_pdf] *)

Lemma lstrip_sublist (s : str) : sublist (lstrip s) s.
Proof.
  induction s as [|c s IH]; [constructor|]. simpl.
  destruct (is_space c); [now apply sublist_cons|reflexivity].
Qed.

Lemma sublist_lstrip (s e : str) : sublist s e -> sublist (lstrip s) (lstrip e).
Proof.
  induction 1 as [|x s e H IH|x s e H IH]; [constructor| |].
  - simpl. destruct (is_space x); [exact IH|now apply sublist_skip].
  - simpl. destruct (is_space x); [exact IH|].
    apply sublist_cons. etransitivity; [apply lstrip_sublist|exact H].
Qed.

Lemma sublist_rev (s e : str) : sublist s e -> sublist (rev s) (rev e).
Proof.
  induction 1 as [|x s e H IH|x s e H IH]; [constructor| |]; simpl.
  - now apply sublist_app.
  - etransitivity; [exact IH|]. now apply sublist_inserts_r.
Qed.

Lemma sublist_strip (s e : str) : sublist s e -> sublist (strip s) (strip e).
Proof.
  intros H. unfold strip, rstrip. now apply sublist_rev, sublist_lstrip, sublist_rev, sublist_lstrip.
Qed.

Lemma embed_link_sublist (t : str) (ld : str * str) : sublist t (embed_link t ld).
Proof.
  unfold embed_link.
  destruct (negb (truthy (fst ld)) || negb (truthy (snd ld))
            || bool_decide (strip (fst ld) = strip (snd ld))); [reflexivity|].
  destruct (find (fst ld) t) as [idx|]; [|reflexivity].
  match goal with |- context [if ?b then _ else _] => destruct b end; [reflexivity|].
  rewrite <- (firstn_skipn (idx + List.length (fst ld)) t) at 1.
  apply sublist_app; [reflexivity|]. now do 3 apply sublist_inserts_l.
Qed.

Lemma embed_links_sublist (l : list (str * str)) (t : str) :
  sublist t (fold_left embed_link l t).
Proof.
  revert t. induction l as [|ld l IH]; intros t; [reflexivity|]. simpl.
  etransitivity; [apply embed_link_sublist|apply IH].
Qed.

Lemma embedded_text_sublist (pages : list pdf_page) :
  sublist (strip (full_text pages))
    (strip (fold_left embed_link (sorted_links (link_details pages)) (full_text pages))).
Proof. apply sublist_strip, embed_links_sublist. Qed.

(** X12: a document that can be read always gives a text, and the text keeps
    what the pages say: the page texts, each followed by a line feed and
    the whole trimmed, can be read off the result by leaving characters
    out.  Embedding links only inserts. *)
Theorem parse_resume_pdf_keeps_text (pages : list pdf_page) :
  exists text,
    parse_resume_pdf (Some pages) = Some text
    /\ sublist (strip (full_text pages)) text
    /\ strip text = text.
Proof.
  eexists. split; [reflexivity|]. split.
  - apply embedded_text_sublist.
  - apply strip_idem.
Qed.

Lemma embed_link_same (t : str) (ld : str * str) :
  strip (fst ld) = strip (snd ld) -> embed_link t ld = t.
Proof.
  intros H. unfold embed_link. rewrite bool_decide_eq_true_2 by assumption.
  now rewrite orb_true_r.
Qed.

Lemma insert_by_len_In (ld x : str * str) (l : list (str * str)) :
  In x (insert_by_len ld l) <-> x = ld \/ In x l.
Proof.
  induction l as [|y l IH]; simpl; [intuition congruence|].
  destruct (List.length (fst ld) <? List.length (fst y)); simpl; rewrite ?IH;
    intuition congruence.
Qed.

Lemma sorted_links_In (x : str * str) (l : list (str * str)) :
  In x (sorted_links l) <-> In x l.
Proof.
  induction l as [|y l IH]; simpl; [tauto|].
  rewrite insert_by_len_In, IH. intuition congruence.
Qed.

(** X13: where no link annotation has an anchor text of its own (it is not a
    URI link, or the text under it is blank or is the address itself),
    nothing is embedded: the result is the trimmed page text, also when
    the text holds addresses written out. *)
Theorem parse_resume_pdf_plain (pages : list pdf_page) :
  (forall page link, In page pages -> In link (page_links page) ->
     kind_is_uri link = false \/ strip (textbox link) = []
     \/ strip (textbox link) = strip (uri link)) ->
  parse_resume_pdf (Some pages) = Some (strip (full_text pages)).
Proof.
  intros H. unfold parse_resume_pdf. do 2 f_equal.
  assert (Hall : forall ld, In ld (sorted_links (link_details pages)) ->
            strip (fst ld) = strip (snd ld)).
  { intros ld Hld. apply (proj1 (sorted_links_In _ _)) in Hld. unfold link_details in Hld.
    apply in_app_iff in Hld. destruct Hld as [Hld|Hld].
    - apply in_flat_map in Hld. destruct Hld as (page & Hp & Hld).
      unfold embedded_links in Hld. apply in_flat_map in Hld.
      destruct Hld as (link & Hl & Hld). specialize (H page link Hp Hl).
      destruct (kind_is_uri link); [|destruct Hld].
      destruct (truthy (strip (uri link))); [|destruct Hld].
      destruct Hld as [<- | []]. cbn [fst snd].
      destruct H as [H | [H | H]]; [discriminate|now rewrite H|].
      destruct (truthy (strip (textbox link))); [|reflexivity].
      now rewrite !strip_idem.
    - unfold plain_links in Hld. apply in_flat_map in Hld.
      destruct Hld as (url & _ & Hld).
      match type of Hld with context [bool_decide ?P] => destruct (bool_decide P) end;
        [destruct Hld|]. now destruct Hld as [<- | []]. }
  revert Hall. generalize (sorted_links (link_details pages)), (full_text pages).
  intros l. induction l as [|ld l IH]; intros t Hall; [reflexivity|]. simpl.
  rewrite embed_link_same by (apply Hall; now left). apply IH.
  intros x Hx. apply Hall. now right.
Qed.

Lemma parse_resume_pdf_plain_witness :
  parse_resume_pdf
    (Some [ {| page_text := " Jane, www.jane.dev ";
               page_links := [ {| kind_is_uri := true; uri := "https://jane.dev";
                                  textbox := "" |} ] |} ])
  = Some "Jane, www.jane.dev".
Proof.
  apply (parse_resume_pdf_plain
           [ {| page_text := " Jane, www.jane.dev ";
                page_links := [ {| kind_is_uri := true; uri := "https://jane.dev";
                                   textbox := "" |} ] |} ]).
  intros page link [<- | []] [<- | []]. right. left. reflexivity.
Defined.

(** X15: step 1 answers with status 400 and nothing else, and only when the
    document cannot be read or its pages hold nothing but white space;
    the text it passes on otherwise is the parsed one, trimmed and not
    empty. *)
Theorem parse_upload_cases (doc : option (list pdf_page)) :
  match parse_upload doc with
  | inl status_code =>
      status_code = 400%Z
      /\ (doc = None \/ exists pages, doc = Some pages /\ strip (full_text pages) = [])
  | inr original_resume_text =>
      original_resume_text <> [] /\ strip original_resume_text = original_resume_text
      /\ parse_resume_pdf doc = Some original_resume_text
  end.
Proof.
  unfold parse_upload. destruct doc as [pages|]; [|simpl; auto].
  pose proof (embedded_text_sublist pages) as Hsub. cbn [parse_resume_pdf].
  destruct (strip (fold_left embed_link (sorted_links (link_details pages))
                     (full_text pages))) as [|c text] eqn:E.
  - split; [reflexivity|]. right. exists pages. split; [reflexivity|].
    now apply sublist_nil_r.
  - split; [discriminate|]. split; [|reflexivity]. rewrite <- E. apply strip_idem.
Qed.

Lemma find_unfold (p s : str) :
  find p s = if startswith p s then Some 0
             else match s with
                  | [] => None
                  | _ :: s' => option_map S (find p s')
                  end.
Proof. now destruct s. Qed.

Lemma find_spec (p s : str) (i : nat) :
  find p s = Some i ->
  exists a b, s = a ++ p ++ b /\ List.length a = i.
Proof.
  revert i. induction s as [|c s IH]; intros i; rewrite find_unfold.
  - destruct (startswith p []) eqn:E; [|discriminate]. intros [= <-].
    exists [], (skipn (List.length p) []). split; [now apply startswith_eq|reflexivity].
  - destruct (startswith p (c :: s)) eqn:E.
    + intros [= <-]. exists [], (skipn (List.length p) (c :: s)).
      split; [now apply startswith_eq|reflexivity].
    + destruct (find p s) as [j|]; [|discriminate]. intros [= <-].
      destruct (IH j eq_refl) as (a & b & -> & <-). now exists (c :: a), b.
Qed.

Lemma startswith_prefix (p x y z : str) :
  List.length p <= List.length x -> startswith p (x ++ y) = startswith p (x ++ z).
Proof.
  revert x. induction p as [|c p IH]; intros [|d x] H; simpl in *; try reflexivity; try lia.
  f_equal. apply IH. lia.
Qed.

Lemma find_tail (p a b b' : str) :
  find p (a ++ p ++ b) = Some (List.length a) ->
  find p (a ++ p ++ b') = Some (List.length a).
Proof.
  induction a as [|c a IH].
  - intros _. rewrite find_unfold. cbn [app]. now rewrite startswith_app.
  - rewrite !(find_unfold p ((c :: a) ++ _)). cbn [List.length].
    rewrite !(app_assoc (c :: a) p).
    rewrite (startswith_prefix p ((c :: a) ++ p) b' b)
      by (rewrite length_app; lia).
    rewrite <- !app_assoc. cbn [app].
    destruct (startswith p (c :: a ++ p ++ b)); [discriminate|].
    destruct (find p (a ++ p ++ b)) as [j|] eqn:Ej; [|discriminate].
    intros [= ->]. now rewrite IH.
Qed.

(** What one round does when it writes. *)
Lemma embed_link_cases (t text url : str) :
  embed_link t (text, url) = t
  \/ exists a b,
       t = a ++ text ++ b
       /\ find text t = Some (List.length a)
       /\ negb (truthy text) || negb (truthy url)
          || bool_decide (strip text = strip url) = false
       /\ embed_link t (text, url) = a ++ text ++ " (" ++ url ++ ")" ++ b.
Proof.
  unfold embed_link. cbn [fst snd].
  destruct (negb (truthy text) || negb (truthy url) || bool_decide (strip text = strip url))
    eqn:Eg; [now left|].
  destruct (find text t) as [idx|] eqn:Ef; [|now left].
  destruct (occurs url _); [now left|]. right.
  destruct (find_spec _ _ _ Ef) as (a & b & -> & <-).
  exists a, b. split; [reflexivity|]. split; [reflexivity|]. split; [reflexivity|].
  replace (List.length a + List.length text) with (List.length (a ++ text))
    by apply length_app.
  rewrite (app_assoc a text b), take_app_length, drop_app_length.
  now rewrite <- app_assoc.
Qed.

(** X14: a round of the embedding loop done a second time with the same link
    changes nothing: the address it wrote behind the anchor is found
    there. *)
Theorem embed_link_idempotent (embedded_text : str) (ld : str * str) :
  embed_link (embed_link embedded_text ld) ld = embed_link embedded_text ld.
Proof.
  destruct ld as [text url].
  destruct (embed_link_cases embedded_text text url) as [E|(a & b & -> & Ef & Eg & E)];
    rewrite E; [exact E|].
  unfold embed_link. cbn [fst snd]. rewrite Eg.
  rewrite (find_tail text a b (" (" ++ url ++ ")" ++ b) Ef).
  replace (List.length a + List.length text) with (List.length (a ++ text))
    by apply length_app.
  rewrite (app_assoc a text), drop_app_length.
  replace (occurs url (firstn (List.length url + 5) (" (" ++ url ++ ")" ++ b)))
    with true; [reflexivity|].
  symmetry.
  replace (List.length url + 5) with (S (S (List.length url + 3))) by lia.
  cbn [app firstn]. apply (occurs_app_r url " (").
  rewrite firstn_app, firstn_all2 by lia.
  apply occurs_startswith, startswith_app.
Qed.
(** ** Steps 5 to 7 *)

Lemma key_nonempty_strip (t : str) : key t <> [] -> strip t <> [].
Proof.
  unfold key. rewrite strip_lower. intros H E. apply H. now rewrite E.
Qed.

Lemma present_covered (skills k : str) :
  present skills k -> key k <> [] -> covered skills k.
Proof.
  intros (t & Hin & Hk) Hne. exists (strip t). split; [now apply in_map|].
  split; [apply key_nonempty_strip; now rewrite Hk|]. now rewrite key_strip.
Qed.

Lemma covered_skill_set (skills k : str) :
  covered skills k -> In (key k) (skill_set skills).
Proof.
  intros (u & Hin & Hne & <-). unfold skill_set. apply in_map_iff. exists u. split.
  - apply in_map_iff in Hin. destruct Hin as (t & <- & _).
    unfold key. now rewrite strip_lower, strip_idem.
  - apply filter_In. split; [assumption|]. now apply truthy_true.
Qed.

Lemma skills_of_cur (skills u : str) :
  In u (skills_of skills) <-> In u (map strip (split ","%char skills)) /\ u <> [].
Proof. unfold skills_of. now rewrite filter_In, truthy_true. Qed.

Lemma cur_nocomma (skills u : str) :
  In u (map strip (split ","%char skills)) -> ~ In ","%char u.
Proof.
  intros Hin H. apply in_map_iff in Hin. destruct Hin as (t & <- & Hin).
  apply strip_In in H. now apply (split_In_nosep _ _ _ Hin).
Qed.

Lemma covered_dec (skills k : str) : covered skills k \/ ~ covered skills k.
Proof.
  destruct (decide (key k ∈ (list_to_set
              (map key (List.filter truthy (map strip (split ","%char skills))))
              : gset str))) as [H|H]; [left|right]; unfold covered;
    now rewrite <- elem_of_keys.
Qed.

(** After an append every keyword that is free of commas and not blank
    is matched by an entry. *)
Lemma keyword_append_skills_covers (master : list str) (skills r k : str) :
  keyword_append_skills master skills = Some r ->
  In k master -> ~ In ","%char k -> key k <> [] -> covered r k.
Proof.
  intros Hr Hin Hc Hk.
  pose proof (keyword_append_skills_spec master skills) as H. rewrite Hr in H.
  destruct H as (_ & l & -> & _ & Hl).
  assert (Hne : k <> []) by (intros ->; now apply Hk).
  destruct (covered_dec skills k) as [(u & Hu & Hune & Huk)|Hn].
  - apply present_covered; [|assumption].
    destruct (join_present l u) as (t & Ht & Htk).
    + apply Hl. tauto.
    + now apply (cur_nocomma skills).
    + exists t. split; [assumption|]. congruence.
  - apply present_covered; [|assumption]. apply join_present; [|assumption].
    apply Hl. tauto.
Qed.

Lemma keyword_append_value (master : list str) (o : gmap string pyval) :
  keyword_append master o =
    match o !! "skills"%string with
    | Some (PStr skills) =>
        match keyword_append_skills master skills with
        | Some r => <["skills"%string := PStr r]> o
        | None => o
        end
    | Some _ => o
    | None =>
        match keyword_append_skills master "" with
        | Some r => <["skills"%string := PStr r]> o
        | None => o
        end
    end.
Proof.
  unfold keyword_append, keyword_append_try.
  destruct (o !! "skills"%string) as [[s| | | | |]|]; cbn; try reflexivity;
    now destruct (keyword_append_skills master _).
Qed.

Lemma keyword_append_skills_settles (master : list str) (skills r : str) :
  (forall k, In k master -> k <> [] -> ~ In ","%char k /\ key k <> []) ->
  keyword_append_skills master skills = Some r ->
  keyword_append_skills master r = None.
Proof.
  intros Hm Hr. pose proof (keyword_append_skills_spec master r) as H.
  destruct (keyword_append_skills master r) as [r'|]; [|reflexivity].
  destruct H as ((k & Hin & Hne & Hn) & _). exfalso. apply Hn.
  destruct (Hm k Hin Hne) as [Hc Hk]. now apply (keyword_append_skills_covers master skills).
Qed.

(** X16: step 6 done twice is step 6 done once, when every keyword of the
    master list is free of commas and not blank: what the first run
    appended, the second finds. *)
Theorem keyword_append_idempotent (master : list str) (o : gmap string pyval) :
  (forall k, In k master -> k <> [] -> ~ In ","%char k /\ key k <> []) ->
  keyword_append master (keyword_append master o) = keyword_append master o.
Proof.
  intros Hm. rewrite (keyword_append_value master o).
  destruct (o !! "skills"%string) as [[s| | | | |]|] eqn:E;
    try (rewrite keyword_append_value, E; reflexivity).
  - destruct (keyword_append_skills master s) as [r|] eqn:Er.
    + rewrite keyword_append_value, lookup_insert_eq.
      now rewrite (keyword_append_skills_settles master s r Hm Er).
    + now rewrite keyword_append_value, E, Er.
  - destruct (keyword_append_skills master "") as [r|] eqn:Er.
    + rewrite keyword_append_value, lookup_insert_eq.
      now rewrite (keyword_append_skills_settles master "" r Hm Er).
    + now rewrite keyword_append_value, E, Er.
Qed.

Lemma keyword_append_idempotent_witness :
  keyword_append ["SQL"; "Tableau"]
    (keyword_append ["SQL"; "Tableau"] {[ "skills"%string := PStr "Python, sql" ]})
  = keyword_append ["SQL"; "Tableau"] {[ "skills"%string := PStr "Python, sql" ]}.
Proof.
  apply (keyword_append_idempotent ["SQL"; "Tableau"]).
  intros k [<- | [<- | []]] _; (split; [|discriminate]);
    intros H; simpl in H; intuition discriminate.
Defined.

(** X17: step 6 never loses a skill: whatever the master list, each skill of
    the incoming string is, up to case, a skill of the outgoing one. *)
Theorem keyword_append_keeps_skills (master : list str) (o : gmap string pyval)
    (skills x : str) :
  o !! "skills"%string = Some (PStr skills) ->
  In x (skill_set skills) ->
  exists r, keyword_append master o !! "skills"%string = Some (PStr r)
            /\ In x (skill_set r).
Proof.
  intros Ho Hx. rewrite keyword_append_value, Ho.
  pose proof (keyword_append_skills_spec master skills) as H.
  destruct (keyword_append_skills master skills) as [r|]; [|now exists skills].
  exists r. split; [apply lookup_insert_eq|].
  destruct H as (_ & l & -> & _ & Hl).
  unfold skill_set in Hx. apply in_map_iff in Hx. destruct Hx as (u & <- & Hu).
  apply skills_of_cur in Hu. destruct Hu as [Hu Hne].
  pose proof (skills_of_clean skills) as Hc. rewrite List.Forall_forall in Hc.
  destruct (Hc u) as (Hcomma & Hs & _); [now apply skills_of_cur|].
  assert (Hcov : covered (join ", " l) u).
  { apply present_covered.
    - apply join_present; [|assumption]. apply Hl. tauto.
    - rewrite (key_clean u Hs). now destruct u. }
  apply covered_skill_set in Hcov. now rewrite (key_clean u Hs) in Hcov.
Qed.

Lemma keyword_append_keeps_skills_witness :
  exists r,
    keyword_append ["Tableau"] {[ "skills"%string := PStr "SQL,  Python" ]}
      !! "skills"%string = Some (PStr r)
    /\ In "python" (skill_set r).
Proof.
  apply (keyword_append_keeps_skills ["Tableau"] _ "SQL,  Python" "python");
    [apply lookup_singleton_eq|simpl; tauto].
Defined.
Lemma partition_skills_shape (jd o : gmap string pyval) :
  partition_skills jd o = o
  \/ exists vis inv,
       partition_skills jd o =
         delete "skills"%string
           (<["skills_invisible"%string := inv]>
              (<["skills_visible"%string := vis]> o)).
Proof.
  unfold partition_skills, partition_skills_try.
  set (fallback := match o !! "skills"%string with
                   | Some skills => _
                   | None => o
                   end).
  assert (Hfb : fallback = o \/ exists vis inv,
            fallback = delete "skills"%string
                         (<["skills_invisible"%string := inv]>
                            (<["skills_visible"%string := vis]> o))).
  { unfold fallback. destruct (o !! "skills"%string); eauto. }
  destruct (py_truthy _); [|right; eauto].
  destruct (str_method _) as [s|?]; cbn [mbind res_bind]; [|exact Hfb].
  destruct (py_get _ "hard_skills" _) as [hard|?]; cbn [mbind res_bind]; [|exact Hfb].
  destruct (stripped_tier hard) as [hard_skills|?]; cbn [mbind res_bind]; [|exact Hfb].
  destruct (py_get _ "soft_skills" _) as [soft|?]; cbn [mbind res_bind]; [|exact Hfb].
  destruct (stripped_tier soft) as [soft_skills|?]; cbn [mbind res_bind]; [|exact Hfb].
  right. eauto.
Qed.

Lemma enforce_contact_line_shape (o o' : gmap string pyval) :
  enforce_contact_line o = Ok o' ->
  o' = o
  \/ exists d contact_line line,
       o !! "contactInfo"%string = Some (PDict d)
       /\ d !! "contactLine"%string = Some contact_line
       /\ enforce_absolute_urls_py contact_line = Ok line
       /\ o' = <["contactInfo"%string := PDict (<["contactLine"%string := PStr line]> d)]> o.
Proof.
  unfold enforce_contact_line.
  destruct (o !! "contactInfo"%string) as [contact_info|]; [|intros [= <-]; now left].
  destruct (py_in "contactLine" contact_info) as [[|]|?]; cbn [mbind res_bind];
    [|intros [= <-]; now left|discriminate].
  destruct contact_info as [| | | | |d]; try discriminate.
  destruct (d !! "contactLine"%string) as [contact_line|] eqn:Ed; [|discriminate].
  destruct (enforce_absolute_urls_py contact_line) as [line|?] eqn:El;
    cbn [mbind res_bind]; [|discriminate].
  intros [= <-]. right. exists d, contact_line, line. auto.
Qed.

(** X18: steps 5 to 7 write to four fields and to nothing else. *)
Theorem cleanup_frame (master : list str) (jd_analysis_report o o' : gmap string pyval)
    (k : string) :
  cleanup master jd_analysis_report o = Ok o' ->
  ~ In k ["contactInfo"; "skills"; "skills_visible"; "skills_invisible"]%string ->
  o' !! k = o !! k.
Proof.
  intros Hc Hk. unfold cleanup in Hc.
  destruct (enforce_contact_line o) as [o1|?] eqn:E1; cbn [mbind res_bind] in Hc;
    [|discriminate].
  injection Hc as <-.
  assert (H1 : o1 !! k = o !! k).
  { destruct (enforce_contact_line_shape _ _ E1) as [->|(d & c & l & _ & _ & _ & ->)];
      [reflexivity|]. apply lookup_insert_ne. simpl in Hk. tauto. }
  assert (H2 : keyword_append master o1 !! k = o1 !! k).
  { rewrite keyword_append_value.
    assert (Hi : forall r, <["skills"%string := PStr r]> o1 !! k = o1 !! k).
    { intros r. apply lookup_insert_ne. simpl in Hk. tauto. }
    destruct (o1 !! "skills"%string) as [[s| | | | |]|]; try reflexivity;
      destruct (keyword_append_skills master _); auto. }
  rewrite <- H1, <- H2.
  destruct (partition_skills_shape jd_analysis_report (keyword_append master o1))
    as [->|(vis & inv & ->)]; [reflexivity|].
  simpl in Hk. rewrite lookup_delete_ne, !lookup_insert_ne by tauto. reflexivity.
Qed.

Lemma cleanup_frame_witness :
  partition_skills ∅
    (keyword_append ["SQL"] {[ "name"%string := PStr "Jane"; "skills"%string := PStr "" ]})
    !! "name"%string
  = ({[ "name"%string := PStr "Jane"; "skills"%string := PStr "" ]} : gmap string pyval)
      !! "name"%string.
Proof.
  apply (cleanup_frame ["SQL"] ∅
           {[ "name"%string := PStr "Jane"; "skills"%string := PStr "" ]});
    [reflexivity|]. simpl. intuition discriminate.
Defined.

Lemma partition_skills_cover (jd o : gmap string pyval) (skills : str) :
  o !! "skills"%string = Some (PStr skills) ->
  exists vis inv,
    partition_skills jd o =
      delete "skills"%string
        (<["skills_invisible"%string := PStr inv]>
           (<["skills_visible"%string := PStr vis]> o))
    /\ forall x, In x (skill_set skills) ->
         In x (skill_set vis) \/ In x (skill_set inv).
Proof.
  intros Hs. destruct (partition_skills_cases jd o skills Hs) as (vis & inv & E & Hc).
  exists vis, inv. split; [exact E|]. intros x Hx.
  destruct Hc as [(-> & -> & ->)|[(V & -> & ->)|(-> & ->)]]; [tauto| |tauto].
  rewrite !skill_set_join_filter. unfold skill_set in Hx.
  apply in_map_iff in Hx. destruct Hx as (s & Hl & Hin).
  destruct (bool_decide (lower s ∈ V)) eqn:Eb; [left|right]; exists s; rewrite Eb; auto.
Qed.

(** X19: steps 5 to 7 together: when the draft carries a skills string and
    step 5 goes through, the object that leaves step 7 has the two skill
    fields and no ['skills'], and every keyword of the master list that
    is free of commas and not blank is, lower-cased and trimmed, a skill
    of one of the two fields. *)
Theorem cleanup_covers (master : list str) (jd_analysis_report o o' : gmap string pyval)
    (skills : str) :
  o !! "skills"%string = Some (PStr skills) ->
  cleanup master jd_analysis_report o = Ok o' ->
  exists vis inv,
    o' !! "skills_visible"%string = Some (PStr vis)
    /\ o' !! "skills_invisible"%string = Some (PStr inv)
    /\ o' !! "skills"%string = None
    /\ forall k, In k master -> ~ In ","%char k -> key k <> [] ->
         In (key k) (skill_set vis) \/ In (key k) (skill_set inv).
Proof.
  intros Hs Hc. unfold cleanup in Hc.
  destruct (enforce_contact_line o) as [o1|?] eqn:E1; cbn [mbind res_bind] in Hc;
    [|discriminate].
  injection Hc as <-.
  assert (H1 : o1 !! "skills"%string = Some (PStr skills)).
  { destruct (enforce_contact_line_shape _ _ E1) as [->|(d & c & l & _ & _ & _ & ->)];
      [assumption|]. now rewrite lookup_insert_ne. }
  assert (H2 : exists r, keyword_append master o1 !! "skills"%string = Some (PStr r)
             /\ forall k, In k master -> ~ In ","%char k -> key k <> [] -> covered r k).
  { rewrite (keyword_append_str master o1 skills H1).
    pose proof (keyword_append_skills_spec master skills) as Hspec.
    destruct (keyword_append_skills master skills) as [r|] eqn:Er.
    - exists r. split; [apply lookup_insert_eq|]. intros k Hin Hcomma Hk.
      now apply (keyword_append_skills_covers master skills).
    - exists skills. split; [assumption|]. intros k Hin _ Hk. apply Hspec; [assumption|].
      intros ->. now apply Hk. }
  destruct H2 as (r & Hr & Hcov).
  destruct (partition_skills_cover jd_analysis_report _ r Hr) as (vis & inv & -> & Hp).
  exists vis, inv.
  split; [now rewrite lookup_delete_ne, lookup_insert_ne, lookup_insert_eq|].
  split; [now rewrite lookup_delete_ne, lookup_insert_eq|].
  split; [apply lookup_delete_eq|].
  intros k Hin Hcomma Hk. apply Hp, covered_skill_set. now apply Hcov.
Qed.

Lemma cleanup_covers_witness :
  exists vis inv,
    partition_skills
      {[ "keywords"%string := PDict {[ "hard_skills"%string := PList [PStr "sql"] ]} ]}
      (keyword_append ["SQL"; "Power BI"] {[ "skills"%string := PStr "Excel" ]})
      !! "skills_visible"%string = Some (PStr vis)
    /\ partition_skills
      {[ "keywords"%string := PDict {[ "hard_skills"%string := PList [PStr "sql"] ]} ]}
      (keyword_append ["SQL"; "Power BI"] {[ "skills"%string := PStr "Excel" ]})
      !! "skills_invisible"%string = Some (PStr inv)
    /\ (In "power bi" (skill_set vis) \/ In "power bi" (skill_set inv)).
Proof.
  destruct (cleanup_covers ["SQL"; "Power BI"]
              {[ "keywords"%string := PDict {[ "hard_skills"%string := PList [PStr "sql"] ]} ]}
              {[ "skills"%string := PStr "Excel" ]}
              (partition_skills
                 {[ "keywords"%string :=
                      PDict {[ "hard_skills"%string := PList [PStr "sql"] ]} ]}
                 (keyword_append ["SQL"; "Power BI"] {[ "skills"%string := PStr "Excel" ]}))
              "Excel")
    as (vis & inv & Hv & Hi & _ & Hk); [apply lookup_singleton_eq|reflexivity|].
  exists vis, inv. split; [exact Hv|]. split; [exact Hi|].
  apply (Hk "Power BI"); [simpl; tauto| |discriminate].
  intros H. simpl in H. intuition discriminate.
Defined.
Lemma stripped_tier_strings (tier : list str) :
  stripped_tier (PList (map PStr tier)) = Ok (List.filter truthy (map strip tier)).
Proof.
  unfold stripped_tier. cbn [py_iter mbind res_bind].
  assert (E : for_each (fun skill => s ← str_method skill; Ok (strip s)) (map PStr tier)
              = Ok (map strip tier)).
  { induction tier as [|t tier IH]; [reflexivity|].
    cbn [map for_each str_method mbind res_bind]. now rewrite IH. }
  now rewrite E.
Qed.

Lemma visible_set_In (tiers : list str) (s : str) :
  s <> [] -> strip s = s ->
  lower s ∈ (list_to_set (map lower (List.filter truthy (map strip tiers))) : gset str)
  <-> In (lower s) (map key tiers).
Proof.
  intros Hne Hs. rewrite elem_of_list_to_set, list_elem_of_In, !in_map_iff. split.
  - intros (u & Hl & Hu). apply filter_In in Hu. destruct Hu as [Hu _].
    apply in_map_iff in Hu. destruct Hu as (h & <- & Hh). exists h.
    split; [|assumption]. unfold key. now rewrite strip_lower.
  - intros (h & Hk & Hh). exists (strip h). unfold key in Hk. rewrite strip_lower in Hk.
    split; [assumption|]. apply filter_In. split; [now apply in_map|].
    apply truthy_true. intros E. rewrite E in Hk. destruct s; [congruence|discriminate].
Qed.

(** X20: which skills step 7 shows, when the two tiers it reads are lists of
    strings (a tier that is absent counts as empty): a skill of the
    skills string is visible exactly when, lower-cased, it is a
    lower-cased and trimmed keyword of [hard_skills] or [soft_skills];
    every other skill is invisible, the keywords of [tools] and
    [domain_phrases] among them. *)
Theorem partition_skills_visible (jd o kw : gmap string pyval)
    (hard soft : list str) (skills : str) :
  default (PDict ∅) (jd !! "keywords"%string) = PDict kw ->
  default (PList []) (kw !! "hard_skills"%string) = PList (map PStr hard) ->
  default (PList []) (kw !! "soft_skills"%string) = PList (map PStr soft) ->
  o !! "skills"%string = Some (PStr skills) ->
  exists vis inv,
    partition_skills jd o !! "skills_visible"%string = Some (PStr vis)
    /\ partition_skills jd o !! "skills_invisible"%string = Some (PStr inv)
    /\ (forall x, In x (skill_set vis)
          <-> In x (skill_set skills) /\ In x (map key (hard ++ soft)))
    /\ (forall x, In x (skill_set inv)
          <-> In x (skill_set skills) /\ ~ In x (map key (hard ++ soft))).
Proof.
  intros Hjd Hh Hsoft Hs. unfold partition_skills, partition_skills_try.
  rewrite Hs, Hjd. cbn [from_option id py_truthy str_method mbind res_bind py_get].
  destruct (truthy skills) eqn:Ht.
  2: { destruct skills; [|discriminate]. exists [], [].
       split; [now rewrite lookup_delete_ne, lookup_insert_ne, lookup_insert_eq|].
       split; [now rewrite lookup_delete_ne, lookup_insert_eq|].
       split; intros x; simpl; tauto. }
  rewrite Hh, Hsoft, !stripped_tier_strings. cbn [mbind res_bind].
  rewrite !join_nil_or. fold (skills_of skills).
  rewrite <- List.filter_app, <- map_app.
  eexists _, _.
  split; [now rewrite lookup_delete_ne, lookup_insert_ne, lookup_insert_eq|].
  split; [now rewrite lookup_delete_ne, lookup_insert_eq|].
  pose proof (skills_of_clean skills) as Hc. rewrite List.Forall_forall in Hc.
  split; intros x; rewrite skill_set_join_filter; unfold skill_set; rewrite in_map_iff.
  - split.
    + intros (s & Hin & Hb & <-). destruct (Hc s Hin) as (_ & Hst & Hne).
      apply bool_decide_eq_true in Hb. split; [eauto|]. now apply visible_set_In.
    + intros [(s & <- & Hin) Hk]. destruct (Hc s Hin) as (_ & Hst & Hne).
      exists s. split; [assumption|]. split; [|reflexivity].
      apply bool_decide_eq_true. now apply visible_set_In.
  - split.
    + intros (s & Hin & Hb & <-). destruct (Hc s Hin) as (_ & Hst & Hne).
      apply negb_true_iff, bool_decide_eq_false in Hb. split; [eauto|].
      intros Hk. apply Hb. now apply visible_set_In.
    + intros [(s & <- & Hin) Hk]. destruct (Hc s Hin) as (_ & Hst & Hne).
      exists s. split; [assumption|]. split; [|reflexivity].
      apply negb_true_iff, bool_decide_eq_false. intros Hv. apply Hk.
      now apply visible_set_In.
Qed.

Lemma partition_skills_visible_witness :
  exists vis inv,
    partition_skills
      {[ "keywords"%string :=
           PDict {[ "hard_skills"%string := PList [PStr " SQL "];
                    "tools"%string := PList [PStr "Excel"] ]} ]}
      {[ "skills"%string := PStr "Excel, sql" ]} !! "skills_visible"%string
    = Some (PStr vis)
    /\ (In "sql" (skill_set vis) /\ In "excel" (skill_set inv)).
Proof.
  destruct (partition_skills_visible
              {[ "keywords"%string :=
                   PDict {[ "hard_skills"%string := PList [PStr " SQL "];
                            "tools"%string := PList [PStr "Excel"] ]} ]}
              {[ "skills"%string := PStr "Excel, sql" ]}
              {[ "hard_skills"%string := PList [PStr " SQL "];
                 "tools"%string := PList [PStr "Excel"] ]}
              [" SQL "] [] "Excel, sql")
    as (vis & inv & Hv & _ & Hvis & Hinv);
    [reflexivity|reflexivity|reflexivity|apply lookup_singleton_eq|].
  exists vis, inv. split; [exact Hv|]. split.
  - apply Hvis. simpl. tauto.
  - apply Hinv. split; [simpl; tauto|]. simpl. intuition discriminate.
Defined.
(** X21: step 5 on an object whose contact information is a dict with a
    contact line: a string is replaced by what [enforce_absolute_urls]
    makes of it, which is settled (no "http://" is left, and
    "linkedin.com" and "github.com", where they occur, occur behind
    "https://" at least once; the portfolio host can stay without a
    scheme); a falsy value is replaced by the empty string; and a
    truthy value that is not a string makes the step raise, outside
    every [try] of the endpoint. *)
Theorem enforce_contact_line_cases (o d : gmap string pyval) (contact_line : pyval) :
  o !! "contactInfo"%string = Some (PDict d) ->
  d !! "contactLine"%string = Some contact_line ->
  match contact_line with
  | PStr s =>
      settled (enforce_absolute_urls s)
      /\ enforce_contact_line o
         = Ok (<["contactInfo"%string :=
                 PDict (<["contactLine"%string := PStr (enforce_absolute_urls s)]> d)]> o)
  | _ =>
      if py_truthy contact_line then enforce_contact_line o = Raise AttributeError
      else enforce_contact_line o
           = Ok (<["contactInfo"%string :=
                   PDict (<["contactLine"%string := PStr ""]> d)]> o)
  end.
Proof.
  intros Ho Hd. unfold enforce_contact_line. rewrite Ho. cbn [py_in mbind res_bind].
  rewrite bool_decide_eq_true_2 by (rewrite Hd; eauto). rewrite Hd.
  unfold enforce_absolute_urls_py.
  destruct contact_line as [s| |n|b|l|d']; cbn [py_truthy].
  - split; [apply enforce_absolute_urls_settled|].
    destruct s as [|c s]; cbn [truthy str_method mbind res_bind]; reflexivity.
  - reflexivity.
  - destruct (negb (n =? 0)%Z); reflexivity.
  - destruct b; reflexivity.
  - destruct l; reflexivity.
  - destruct (negb _); reflexivity.
Qed.

Lemma enforce_contact_line_cases_witness :
  settled (enforce_absolute_urls "linkedin.com/in/j")
  /\ enforce_contact_line
       {[ "contactInfo"%string := PDict {[ "contactLine"%string := PStr "linkedin.com/in/j" ]} ]}
     = Ok (<["contactInfo"%string :=
             PDict (<["contactLine"%string := PStr (enforce_absolute_urls "linkedin.com/in/j")]>
                      {[ "contactLine"%string := PStr "linkedin.com/in/j" ]})]>
             {[ "contactInfo"%string :=
                  PDict {[ "contactLine"%string := PStr "linkedin.com/in/j" ]} ]}).
Proof.
  apply (enforce_contact_line_cases
           {[ "contactInfo"%string :=
                PDict {[ "contactLine"%string := PStr "linkedin.com/in/j" ]} ]}
           {[ "contactLine"%string := PStr "linkedin.com/in/j" ]}
           (PStr "linkedin.com/in/j")); apply lookup_singleton_eq.
Defined.

(** ** The master keyword list *)

Lemma str_lt_irrefl (a : str) : ~ str_lt a a.
Proof. unfold str_lt. now rewrite str_compare_refl. Qed.

Lemma strict_sorted_unique (l1 l2 : list str) :
  StronglySorted str_lt l1 -> StronglySorted str_lt l2 ->
  (forall x, In x l1 <-> In x l2) -> l1 = l2.
Proof.
  intros H1. revert l2. induction H1 as [|x l1 Hs1 IH Hx]; intros l2 H2 Heq.
  - destruct l2 as [|y l2]; [reflexivity|]. destruct (proj2 (Heq y)). now left.
  - destruct H2 as [|y l2 Hs2 Hy]; [destruct (proj1 (Heq x)); now left|].
    rewrite List.Forall_forall in Hx, Hy.
    assert (E : x = y).
    { destruct (proj1 (Heq x) (or_introl eq_refl)) as [E|Hin]; [now symmetry|].
      destruct (proj2 (Heq y) (or_introl eq_refl)) as [E|Hin']; [assumption|].
      exfalso. apply (str_lt_irrefl x). eapply str_lt_trans; [apply Hx, Hin'|apply Hy, Hin]. }
    subst y. f_equal. apply IH; [assumption|]. intros z. split; intros Hz.
    + destruct (proj1 (Heq z) (or_intror Hz)) as [<- | H]; [|assumption].
      exfalso. apply (str_lt_irrefl x), Hx, Hz.
    + destruct (proj2 (Heq z) (or_intror Hz)) as [<- | H]; [|assumption].
      exfalso. apply (str_lt_irrefl x), Hy, Hz.
Qed.

(** X22: keywords that the verification reports as missing although stage 1
    has them change nothing: the master list is then the stage-1 list
    itself.  So is it when the verification reports none. *)
Theorem master_keyword_list_absorbs (all_skills missing_keywords : list str) :
  (forall k, In k missing_keywords -> In k (jd_all_skills_set_call1 all_skills)) ->
  master_keyword_list (jd_all_skills_set_call1 all_skills) missing_keywords
  = jd_all_skills_set_call1 all_skills.
Proof.
  intros H. unfold master_keyword_list.
  apply strict_sorted_unique; [apply sorted_set_strict|apply sorted_set_strict|].
  intros x. rewrite sorted_set_In, in_app_iff. split; [|tauto].
  intros [Hx | Hx]; [assumption|now apply H].
Qed.

Lemma master_keyword_list_absorbs_witness :
  master_keyword_list (jd_all_skills_set_call1 ["SQL"; ""; "Excel"; "SQL"]) ["Excel"]
  = jd_all_skills_set_call1 ["SQL"; ""; "Excel"; "SQL"].
Proof.
  apply (master_keyword_list_absorbs ["SQL"; ""; "Excel"; "SQL"] ["Excel"]).
  intros k [<- | []]. vm_compute. tauto.
Defined.

(** X23: whenever the verification stage hands over a master list, the list
    is in strictly ascending order and every stage-1 keyword is in it:
    no reply of the verification call can remove a keyword. *)
Theorem verification_stage_keeps_keywords (json_loads : str -> option pyval)
    (skills_call1 : list str) (api_response : gmap string pyval) (master : list str) :
  verification_stage json_loads skills_call1 api_response = inr master ->
  StronglySorted str_lt master /\ forall k, In k skills_call1 -> In k master.
Proof.
  unfold verification_stage.
  destruct (verified_missing_keywords json_loads api_response) as [?|missing];
    [discriminate|].
  destruct (keyword_strings missing) as [kws|?]; [|discriminate].
  intros [= <-]. unfold master_keyword_list. split; [apply sorted_set_strict|].
  intros k Hk. apply sorted_set_In, in_app_iff. now left.
Qed.

Lemma verification_stage_keeps_keywords_witness :
  StronglySorted str_lt ["Excel"; "SQL"]
  /\ forall k, In k ["SQL"] -> In k ["Excel"; "SQL"].
Proof.
  apply (verification_stage_keeps_keywords
           (fun _ => Some (PDict {[ "missing_keywords"%string := PList [PStr "Excel"] ]}))
           ["SQL"] (reply_with_text "{}")).
  vm_compute. reflexivity.
Defined.
(** ** Reading the reply of the verification call *)

Lemma from_first_skip (c : ascii) (a b : str) :
  ~ In c a -> from_first c (a ++ c :: b) = Some (c :: b).
Proof.
  induction a as [|x a IH]; intros H; cbn [app from_first].
  - now rewrite Ascii.eqb_refl.
  - destruct (Ascii.eqb x c) eqn:E; [apply Ascii.eqb_eq in E; subst; destruct H; now left|].
    apply IH. intros Hin. apply H. now right.
Qed.

Lemma upto_last_skip (c : ascii) (a b : str) :
  ~ In c b -> upto_last c (a ++ c :: b) = Some (a ++ [c]).
Proof.
  intros H. unfold upto_last. rewrite rev_app_distr. cbn [rev]. rewrite <- app_assoc.
  cbn [app]. rewrite from_first_skip by (now rewrite <- in_rev).
  f_equal. change (c :: rev a) with ([c] ++ rev a).
  now rewrite rev_app_distr, rev_involutive.
Qed.

Lemma search_braces_skip (a m b : str) :
  ~ In "{"%char a -> ~ In "}"%char b ->
  search_braces (a ++ "{"%char :: m ++ "}"%char :: b) = Some ("{"%char :: m ++ ["}"%char]).
Proof.
  intros Ha Hb. unfold search_braces. rewrite from_first_skip by assumption.
  now rewrite upto_last_skip.
Qed.

Lemma startswith_before (p a r : str) (c : ascii) :
  ~ In c p -> startswith p (a ++ c :: r) = true -> exists a1, a = p ++ a1.
Proof.
  revert a. induction p as [|x p IH]; intros a Hc H; [now exists a|].
  destruct a as [|y a]; cbn [app startswith] in H; apply andb_true_iff in H;
    destruct H as [E H]; apply Ascii.eqb_eq in E; subst.
  - destruct Hc. now left.
  - destruct (IH a) as (a1 & ->); [intros Hin; apply Hc; now right|assumption|].
    now exists a1.
Qed.

(** The fences fall away with whatever else stands around the braces. *)
Lemma strip_fences_around (a m b : str) :
  ~ In "{"%char a -> ~ In "}"%char b ->
  exists a' b',
    strip_fences (a ++ "{"%char :: m ++ "}"%char :: b) = a' ++ "{"%char :: m ++ "}"%char :: b'
    /\ ~ In "{"%char a' /\ ~ In "}"%char b'.
Proof.
  intros Ha Hb. unfold strip_fences.
  assert (H1 : exists a',
            (if startswith "```json" (a ++ "{"%char :: m ++ "}"%char :: b)
             then skipn 7 (a ++ "{"%char :: m ++ "}"%char :: b)
             else a ++ "{"%char :: m ++ "}"%char :: b)
            = a' ++ "{"%char :: m ++ "}"%char :: b /\ ~ In "{"%char a').
  { destruct (startswith "```json" (a ++ "{"%char :: m ++ "}"%char :: b)) eqn:E;
      [|now exists a].
    apply startswith_before in E; [|simpl; intuition discriminate].
    destruct E as (a1 & ->). exists a1. split.
    - rewrite <- app_assoc. apply (drop_app_length "```json").
    - intros H. apply Ha, in_app_iff. now right. }
  destruct H1 as (a' & -> & Ha').
  destruct (endswith "```" (a' ++ "{"%char :: m ++ "}"%char :: b)) eqn:E;
    [|now exists a', b].
  unfold endswith in E.
  assert (Er : rev (a' ++ "{"%char :: m ++ "}"%char :: b)
               = rev b ++ "}"%char :: rev (a' ++ "{"%char :: m)).
  { change (a' ++ "{"%char :: m ++ "}"%char :: b)
      with (a' ++ ("{"%char :: m) ++ "}"%char :: b).
    rewrite (app_assoc a'), (rev_app_distr (a' ++ "{"%char :: m)). cbn [rev].
    now rewrite <- app_assoc. }
  rewrite Er in E.
  apply startswith_before in E; [|simpl; intuition discriminate].
  destruct E as (b1 & Eb).
  assert (Eb' : b = rev b1 ++ "```").
  { rewrite <- (rev_involutive b), Eb, rev_app_distr. reflexivity. }
  exists a', (rev b1). split; [|split; [assumption|]].
  - rewrite Eb'.
    replace (a' ++ "{"%char :: m ++ "}"%char :: rev b1 ++ "```")
      with ((a' ++ "{"%char :: m ++ "}"%char :: rev b1) ++ "```").
    2: { rewrite <- app_assoc. cbn [app]. rewrite <- app_assoc. reflexivity. }
    rewrite length_app. cbn [List.length]. rewrite Nat.add_sub.
    apply take_app_length.
  - intros H. apply Hb. rewrite Eb'. apply in_app_iff. now left.
Qed.

Lemma keyword_strings_strs (l : list str) : keyword_strings (PList (map PStr l)) = Ok l.
Proof.
  unfold keyword_strings. induction l as [|x l IH]; [reflexivity|].
  cbn [map for_each mbind res_bind]. now rewrite IH.
Qed.

(** X24: the verification reply is read from its first opening brace to its
    last closing brace: fences and any other text around the braces are
    ignored, and when what stands between them parses to an object with
    a list of strings under ["missing_keywords"] (or without that key),
    the master list is the stage-1 list and those strings, sorted and
    without duplicates. *)
Theorem verification_stage_reads_object (json_loads : str -> option pyval)
    (skills_call1 missing_keywords : list str) (before inner behind : str)
    (verification_data : gmap string pyval) :
  ~ In "{"%char before -> ~ In "}"%char behind ->
  json_loads ("{"%char :: inner ++ ["}"%char]) = Some (PDict verification_data) ->
  default (PList []) (verification_data !! "missing_keywords"%string)
    = PList (map PStr missing_keywords) ->
  verification_stage json_loads skills_call1
    (reply_with_text (before ++ "{"%char :: inner ++ "}"%char :: behind))
  = inr (master_keyword_list skills_call1 missing_keywords).
Proof.
  intros Ha Hb Hj Hm. unfold verification_stage, verified_missing_keywords.
  set (text := before ++ "{"%char :: inner ++ "}"%char :: behind).
  replace (bool_decide (is_Some (reply_with_text text !! "error"%string))) with false
    by (symmetry; apply bool_decide_eq_false_2; vm_compute; intros [? ?]; discriminate).
  replace (response_text (reply_with_text text)) with (Ok (PStr text) : res pyval)
    by (vm_compute; reflexivity).
  unfold parse_missing_keywords. cbn [str_method mbind res_bind].
  destruct (strip_fences_around before inner behind Ha Hb) as (a' & b' & E & Ha' & Hb').
  fold text in E. rewrite E, search_braces_skip by assumption.
  cbn [default from_option id]. rewrite Hj. cbn [py_get]. rewrite Hm.
  now rewrite keyword_strings_strs.
Qed.

Lemma verification_stage_reads_object_witness :
  verification_stage
    (fun t => if bool_decide (t = "{1}") then
                Some (PDict {[ "missing_keywords"%string := PList [PStr "Excel"] ]})
              else None)
    ["SQL"] (reply_with_text ("```json" ++ "{"%char :: "1" ++ "}"%char :: "```"))
  = inr (master_keyword_list ["SQL"] ["Excel"]).
Proof.
  apply (verification_stage_reads_object _ ["SQL"] ["Excel"] "```json" "1" "```"
           {[ "missing_keywords"%string := PList [PStr "Excel"] ]});
    [simpl; intuition discriminate|simpl; intuition discriminate
    |reflexivity|reflexivity].
Defined.

(** ** The link normalizer, applied again and again *)

Lemma settled_converges (m : nat) (t : str) :
  List.length t <= m -> settled t ->
  exists n, n <= List.length t
    /\ enforce_absolute_urls (Nat.iter n enforce_absolute_urls t)
       = Nat.iter n enforce_absolute_urls t.
Proof.
  revert t. induction m as [|m IH]; intros t Hlen Hs.
  - exists 0. split; [lia|]. destruct t; [reflexivity|simpl in Hlen; lia].
  - destruct (occurs "https://https://" t) eqn:E.
    + pose proof (settled_shrinks t Hs E) as Hlt.
      destruct (IH (enforce_absolute_urls t)) as (n & Hn & Hfix);
        [lia|apply enforce_absolute_urls_settled|].
      exists (S n). split; [lia|]. now rewrite !Nat.iter_succ_r.
    + exists 0. split; [lia|]. now apply settled_fixed.
Qed.

(** X27: applied again and again, the normalizer comes to rest: after the
    first application, at most as many further ones as the line then
    has characters lead to a line that the normalizer leaves as it
    is. *)
Theorem enforce_absolute_urls_converges (contact_line : str) :
  exists n, n <= List.length (enforce_absolute_urls contact_line)
    /\ enforce_absolute_urls (Nat.iter (S n) enforce_absolute_urls contact_line)
       = Nat.iter (S n) enforce_absolute_urls contact_line.
Proof.
  destruct (settled_converges (List.length (enforce_absolute_urls contact_line))
              (enforce_absolute_urls contact_line) (le_n _)
              (enforce_absolute_urls_settled contact_line)) as (n & Hn & Hfix).
  exists n. split; [assumption|]. now rewrite !Nat.iter_succ_r.
Qed.
(** ** The transform prompt: placeholders inside the inputs *)

(** X28: the four replacements run one after the other over the whole
    prompt, the resume text first: a resume text that contains the
    placeholder of the job description has the job description written
    into it by the second replacement. *)
Theorem transform_prompt_resume_placeholder (before behind job_description : str)
    (time_in_weeks ai_multiplier : Z) :
  ~ In "["%char before -> ~ In "["%char behind -> ~ In "["%char job_description ->
  transform_prompt (before ++ "[Paste job description here]" ++ behind) job_description
    time_in_weeks ai_multiplier
  = transform_prompt (before ++ job_description ++ behind) job_description
      time_in_weeks ai_multiplier.
Proof.
  intros Ha Hb Hj. unfold transform_prompt.
  do 2 apply (f_equal (replace _ _)).
  change RESUME_TRANSFORM_PROMPT_TEMPLATE with
    ("Here is the resume to transform:

" ++ "[Paste your resume here]" ++ "

Here is the job description:

" ++ "[Paste job description here]" ++ "

Time in weeks for project development: [Optional: TIME_IN_WEEKS e.g., 2]

AI Multiplier for project scaling: [Optional: AI_MULTIPLIER e.g., 3]
").
  set (rest := "

Time in weeks for project development: [Optional: TIME_IN_WEEKS e.g., 2]

AI Multiplier for project scaling: [Optional: AI_MULTIPLIER e.g., 3]
").
  assert (Hrest1 : forall r, replace "[Paste your resume here]" r rest = rest).
  { intros r. apply replace_absent. vm_compute. reflexivity. }
  assert (H1 : forall r,
            replace "[Paste your resume here]" r
              ("Here is the resume to transform:

" ++ "[Paste your resume here]" ++ "

Here is the job description:

" ++ "[Paste job description here]" ++ rest)
            = "Here is the resume to transform:

" ++ r ++ "

Here is the job description:

" ++ "[Paste job description here]" ++ rest).
  { intros r.
    rewrite replace_skip by (apply not_In_forallb; reflexivity).
    rewrite replace_hit.
    rewrite replace_skip by (apply not_In_forallb; reflexivity).
    rewrite replace_other by first [reflexivity | apply not_In_forallb; reflexivity].
    now rewrite Hrest1. }
  rewrite !H1.
  rewrite !(replace_skip _ _ _ "Here is the resume to transform:

") by (apply not_In_forallb; reflexivity).
  apply (f_equal (app _)). rewrite <- !app_assoc.
  rewrite !(replace_skip _ _ _ before) by assumption.
  apply (f_equal (app _)).
  rewrite replace_hit.
  rewrite (replace_skip _ _ _ job_description) by assumption.
  apply (f_equal (app _)).
  rewrite !(replace_skip _ _ _ behind) by assumption.
  reflexivity.
Qed.

Lemma transform_prompt_resume_placeholder_witness :
  transform_prompt ("Jane " ++ "[Paste job description here]" ++ " Doe") "Analyst" 2 3
  = transform_prompt ("Jane " ++ "Analyst" ++ " Doe") "Analyst" 2 3.
Proof.
  apply (transform_prompt_resume_placeholder "Jane " " Doe" "Analyst" 2 3);
    intros H; simpl in H; intuition discriminate.
Defined.
